(** * botoform: EnvironmentBuilder (src/botoform/builders.py)

    A shallow embedding of the environment builder.  Python integers are [Z],
    Python strings are [string], dictionaries whose iteration order is
    observable are association lists in iteration order, and every call to a
    collaborator (the enriched VPC, boto resources, the logger) is an entry of
    a chronological call history.  The program is Python 2: [map] returns a
    list and [/] on integers is floor division. *)

From Stdlib Require Import ZArith String Ascii Bool Lia List Permutation Sorted.
From Stdlib Require Import DecimalString.
Import ListNotations.
Open Scope string_scope.
Open Scope list_scope.
Open Scope Z_scope.

Set Implicit Arguments.

(** ** Exceptions and results *)

(** The exception classes the builder can meet.  [KeyboardInterrupt] stands for
    the classes that derive from BaseException only: [except Exception] does
    not catch them, a bare [except:] does. *)
Inductive exn_class : Type :=
  | KeyError | TypeError | AttributeError | IndexError | ValueError
  | CapacityExceeded | ClientError | KeyboardInterrupt.

Record exn : Type := mk_exn { exn_cls : exn_class; exn_str : string }.

Definition is_Exception (e : exn) : bool :=
  match exn_cls e with KeyboardInterrupt => false | _ => true end.

Inductive outcome (A : Type) : Type :=
  | Ok (a : A)
  | Raise (e : exn).
Arguments Ok {A} a.
Arguments Raise {A} e.

(** ** Stable sorting, as Python's [sorted] *)

Section StableSort.
Variable A : Type.
Variable leb : A -> A -> bool.

Fixpoint insert_sorted (x : A) (l : list A) : list A :=
  match l with
  | [] => [x]
  | y :: l' => if leb x y then x :: l else y :: insert_sorted x l'
  end.

Definition sorted (l : list A) : list A := fold_right insert_sorted [] l.
End StableSort.

(** ** Address blocks and the subnet allocator *)

Definition address_bits : Z := 32.

(** A network prefix: base address and prefix length. *)
Record AddressBlock : Type := mk_block { base : Z; prefixlen : Z }.

Definition capacity (b : AddressBlock) : Z := 2 ^ (address_bits - prefixlen b).
Definition block_end (b : AddressBlock) : Z := base b + capacity b.

(** Host bits of the base are zero and the prefix length is within the
    address width: what makes a (base, length) pair a network prefix. *)
Definition wf_block (b : AddressBlock) : Prop :=
  0 <= prefixlen b <= address_bits /\ 0 <= base b /\ (capacity b | base b).

Definition inside (p b : AddressBlock) : Prop :=
  base p <= base b /\ block_end b <= block_end p.

Definition disjoint (a b : AddressBlock) : Prop :=
  block_end a <= base b \/ block_end b <= base a.

Definition is_pow2 (c : Z) : Prop := exists k, 0 <= k /\ c = 2 ^ k.

Definition total (sizes : list Z) : Z := fold_right Z.add 0 sizes.

(** A request keeps its original position next to its capacity. *)
Definition indexed (sizes : list Z) : list (nat * Z) :=
  combine (seq 0 (length sizes)) sizes.

Definition by_size_desc (x y : nat * Z) : bool := snd y <=? snd x.
Definition by_position {B : Type} (x y : nat * B) : bool := (fst x <=? fst y)%nat.

Definition align_up (cursor c : Z) : Z := (cursor + c - 1) / c * c.

Definition block_of (start c : Z) : AddressBlock :=
  mk_block start (address_bits - Z.log2 c).

Fixpoint assign (limit cursor : Z) (reqs : list (nat * Z))
  : outcome (list (nat * AddressBlock)) :=
  match reqs with
  | [] => Ok []
  | (i, c) :: rest =>
      let start := align_up cursor c in
      if limit <? start + c then Raise (mk_exn CapacityExceeded "CapacityExceeded")
      else match assign limit (start + c) rest with
           | Ok bs => Ok ((i, block_of start c) :: bs)
           | Raise e => Raise e
           end
  end.

(** Modelled from the spec: botoform.subnetallocator.allocate is imported by
    builders.py but is not part of the sources at hand.  The definition follows
    the allocator's algorithm: reject a parent smaller than the sum
    of the requests, sort the requests by decreasing size (stable) with their
    original positions, walk a cursor from the parent's base rounding it up to
    each size's alignment, fail when a block would pass the parent's end, and
    put the blocks back in request order. *)
Definition allocate (parent : AddressBlock) (sizes : list Z)
  : outcome (list AddressBlock) :=
  if capacity parent <? total sizes
  then Raise (mk_exn CapacityExceeded "CapacityExceeded")
  else match assign (block_end parent) (base parent)
               (sorted by_size_desc (indexed sizes)) with
       | Ok bs => Ok (map snd (sorted by_position bs))
       | Raise e => Raise e
       end.

(** ** Python values and builtins used by the builder *)

Inductive pyval : Type := PyInt (z : Z) | PyStr (s : string).

(** The [+] operator on integers and strings. *)
Definition py_add (a b : pyval) : outcome pyval :=
  match a, b with
  | PyInt x, PyInt y => Ok (PyInt (x + y))
  | PyStr x, PyStr y => Ok (PyStr (x ++ y)%string)
  | PyInt _, PyStr _ =>
      Raise (mk_exn TypeError "unsupported operand type(s) for +: 'int' and 'str'")
  | PyStr _, PyInt _ =>
      Raise (mk_exn TypeError "cannot concatenate 'str' and 'int' objects")
  end.

Definition str_of_Z (z : Z) : string := NilZero.string_of_int (Z.to_int z).

Definition py_str (v : pyval) : string :=
  match v with PyInt z => str_of_Z z | PyStr s => s end.

Definition len {A : Type} (l : list A) : Z := Z.of_nat (length l).

Definition mem_char (c : ascii) (chars : string) : bool :=
  existsb (Ascii.eqb c) (list_ascii_of_string chars).

(** [s.lstrip(chars)]: drops leading characters while they belong to [chars]. *)
Fixpoint lstrip (chars : string) (s : string) : string :=
  match s with
  | EmptyString => EmptyString
  | String c rest => if mem_char c chars then lstrip chars rest else s
  end.

Definition map_ascii (f : ascii -> ascii) (s : string) : string :=
  string_of_list_ascii (map f (list_ascii_of_string s)).

Definition lower_char (c : ascii) : ascii :=
  let n := nat_of_ascii c in
  if ((65 <=? n) && (n <=? 90))%nat then ascii_of_nat (n + 32) else c.

Definition upper_char (c : ascii) : ascii :=
  let n := nat_of_ascii c in
  if ((97 <=? n) && (n <=? 122))%nat then ascii_of_nat (n - 32) else c.

Definition lower : string -> string := map_ascii lower_char.
Definition upper : string -> string := map_ascii upper_char.

(** [sep.join(l)]. *)
Fixpoint join (sep : string) (l : list string) : string :=
  match l with
  | [] => ""
  | [x] => x
  | x :: rest => (x ++ sep ++ join sep rest)%string
  end.

(** [s.split('-')[-1]]: the part after the last dash. *)
Fixpoint last_segment_from (acc : string) (s : string) : string :=
  match s with
  | EmptyString => acc
  | String c rest =>
      if Ascii.eqb c "-"%char then last_segment_from "" rest
      else last_segment_from (acc ++ String c "")%string rest
  end.
Definition last_segment : string -> string := last_segment_from "".

(** [l[i]] with Python's negative indices. *)
Definition py_index {A : Type} (l : list A) (i : Z) : outcome A :=
  let j := if i <? 0 then i + len l else i in
  if j <? 0 then Raise (mk_exn IndexError "list index out of range")
  else match nth_error l (Z.to_nat j) with
       | Some x => Ok x
       | None => Raise (mk_exn IndexError "list index out of range")
       end.

(** Dictionaries with string keys, in iteration order. *)
Definition dict (V : Type) : Type := list (string * V).

Fixpoint dict_get {V : Type} (d : dict V) (k : string) : option V :=
  match d with
  | [] => None
  | (k', v) :: d' => if String.eqb k k' then Some v else dict_get d' k
  end.

Fixpoint dict_set {V : Type} (d : dict V) (k : string) (v : V) : dict V :=
  match d with
  | [] => [(k, v)]
  | (k', v') :: d' =>
      if String.eqb k k' then (k, v) :: d' else (k', v') :: dict_set d' k v
  end.

(** [d[k]] *)
Definition dict_getitem {V : Type} (d : dict V) (k : string) : outcome V :=
  match dict_get d k with
  | Some v => Ok v
  | None => Raise (mk_exn KeyError ("'" ++ k ++ "'")%string)
  end.

(** The blanks [str.strip] and [int] skip: space, tab, newline, vertical tab,
    form feed, carriage return. *)
Definition is_space (c : ascii) : bool :=
  let n := nat_of_ascii c in
  (Nat.eqb n 32 || ((9 <=? n) && (n <=? 13)))%nat.

Fixpoint lstrip_spaces (s : string) : string :=
  match s with
  | EmptyString => EmptyString
  | String c rest => if is_space c then lstrip_spaces rest else s
  end.

Definition reverse (s : string) : string :=
  string_of_list_ascii (rev (list_ascii_of_string s)).

Definition strip (s : string) : string :=
  reverse (lstrip_spaces (reverse (lstrip_spaces s))).

Definition digit_of (c : ascii) : option Z :=
  let n := nat_of_ascii c in
  if ((48 <=? n) && (n <=? 57))%nat then Some (Z.of_nat (n - 48)) else None.

Fixpoint digits_value (acc : Z) (s : string) : option Z :=
  match s with
  | EmptyString => Some acc
  | String c rest =>
      match digit_of c with
      | Some d => digits_value (10 * acc + d) rest
      | None => None
      end
  end.

(** [int(s)] on a byte string: blanks around, an optional sign, then decimal
    digits only.  The message quotes [s] as [repr] does for a string without
    quotes or escapes. *)
Definition python_int (s : string) : outcome Z :=
  let invalid :=
    mk_exn ValueError ("invalid literal for int() with base 10: '" ++ s ++ "'")%string in
  let body := strip s in
  let '(sign, digits) :=
    match body with
    | String "-"%char rest => (-1, rest)
    | String "+"%char rest => (1, rest)
    | _ => (1, body)
    end in
  match digits with
  | EmptyString => Raise invalid
  | _ => match digits_value 0 digits with
         | Some n => Ok (sign * n)
         | None => Raise invalid
         end
  end.

(** ** Configuration *)

Record RouteTableCfg : Type := {
  rt_main : bool;                          (* data.get('main', False) == True *)
  rt_routes : list (string * string)       (* data.get('routes', []) *)
}.

Record SubnetCfg : Type := {
  sn_size : Z;
  sn_availability_zone : option string;
  sn_description : option string;
  sn_public : bool;
  sn_route_table : option string
}.

Record RoleCfg : Type := {
  role_count : option Z;
  role_eip : bool;
  role_ami : option string;
  role_instance_type : option string;
  role_key_pair : option string;
  role_security_groups : list string;
  role_subnets : list string
}.

(** A security group rule: source, protocol, ports. *)
Definition RuleCfg : Type := (string * string * string)%type.

(** The address of a list object on the heap. *)
Definition addr : Type := nat.

Record Config : Type := {
  cfg_amis : option (dict (dict string));
  cfg_route_tables : dict RouteTableCfg;
  cfg_subnets : dict SubnetCfg;
  cfg_endpoints : list string;
  cfg_key_pairs : option addr;             (* the list object under 'key_pairs' *)
  cfg_security_groups : dict (list RuleCfg);
  cfg_instance_roles : dict RoleCfg
}.

(** ** Collaborator calls *)

(** Log levels; [info] is the level [emit] uses when none is given. *)
Inductive level : Type := info | debug | warning | error.

Inductive resource : Type :=
  | RouteTable (id : string)
  | Subnet (id : string)
  | SecurityGroup (id : string)
  | InstanceRes (id : string)
  | Volume (id : string).

Inductive ip_source : Type :=
  | IpRanges (cidr_ip : string)
  | UserIdGroupPairs (group_id : string).

Record permission : Type := {
  IpProtocol : string; FromPort : Z; ToPort : Z; Source : ip_source
}.

Record Instance : Type := { inst_id : string; inst_identity : string }.

(** Every call that leaves the builder, in the order of a build. *)
Inductive call : Type :=
  | Emit (msg : string) (lvl : level)
  | NewEnrichedVPC (vpc_name : string)
  | GetMainRouteTable
  | CreateRouteTable
  | UpdateTags (r : resource) (tags : list (string * string))
  | CreateRoute (rt destination gateway : string)
  | CreateSubnet (cidr : AddressBlock) (az : string)
  | MapPublicIpOnLaunch (sn : string)
  | AssociateRouteTableWithSubnet (rt sn : string)
  | VpcEndpointCreateAll (rts : list string)
  | CreateKeyPair (name : string)
  | CreateSecurityGroup (group_name description : string)
  | AuthorizeIngress (sg : string) (perms : list permission)
  | Uuid4
  | CreateInstances (sn image_id : string) (instance_type : option string)
      (min_count max_count : Z) (key_name : string)
      (security_group_ids : list string) (client_token : string)
  | AllocateEip (instance : string)
  | WaitUntilRunning (instance : string)
  | LockInstances.

(** What the collaborators answer, as functions of the calls made so far.
    [fault] says whether a call raises. *)
Record Cloud : Type := {
  region_name : string;
  evpc_name : string;
  evpc_cidr_block : AddressBlock;
  evpc_azones : list string;
  fault : list call -> call -> option exn;
  get_route_table : list call -> string -> outcome (option string);
  new_route_table : list call -> string;
  internet_gateways : list call -> outcome (list string);
  new_subnet : list call -> string;
  get_security_group : list call -> string -> outcome (option string);
  new_security_group : list call -> string;
  get_key_pair : list call -> string -> outcome (option string);
  get_subnet : list call -> string -> outcome (option string);
  subnet_instances_len : list call -> string -> outcome Z;
  get_role : list call -> string -> outcome (list string);
  get_role_in_subnet : list call -> string -> string -> outcome (list string);
  new_instances : list call -> string -> Z -> list string;
  get_instances : list call -> list string -> outcome (list Instance);
  evpc_instances : list call -> outcome (list Instance);
  instance_volumes : list call -> string -> outcome (list string);
  new_eip : list call -> string;
  new_uuid : list call -> string;
  get_port_range : string -> string -> outcome (Z * Z);
  get_ids : list (option string) -> outcome (list string);
  subnet_name_tag : list call -> string -> outcome string;
  format_exc : exn -> string;
  str_cidr : AddressBlock -> string
}.

(** ** The builder's monad: call history, heap of list objects, exceptions *)

Record state : Type := { history : list call; heap : list (list string) }.

Definition M (A : Type) : Type := state -> outcome A * state.

Definition ret {A : Type} (a : A) : M A := fun s => (Ok a, s).

Definition raise {A : Type} (e : exn) : M A := fun s => (Raise e, s).

Definition bind {A B : Type} (m : M A) (f : A -> M B) : M B :=
  fun s => match m s with
           | (Ok a, s') => f a s'
           | (Raise e, s') => (Raise e, s')
           end.

Notation "x <- m ;; k" := (bind m (fun x => k))
  (at level 61, m at next level, right associativity).
Notation "m ;; k" := (bind m (fun _ => k))
  (at level 61, right associativity).
Notation "' pat <- m ;; k" := (bind m (fun x => match x with pat => k end))
  (at level 61, pat pattern, m at next level, right associativity).

Definition lift {A : Type} (o : outcome A) : M A := fun s => (o, s).

(** [try: body except <classes>: handler], the handler seeing the exception. *)
Definition try_except {A : Type} (body : M A) (catches : exn -> bool)
  (handler : exn -> M A) : M A :=
  fun s => match body s with
           | (Ok a, s') => (Ok a, s')
           | (Raise e, s') => if catches e then handler e s' else (Raise e, s')
           end.

Fixpoint for_each {A : Type} (l : list A) (body : A -> M unit) : M unit :=
  match l with
  | [] => ret tt
  | x :: l' => body x ;; for_each l' body
  end.

Fixpoint for_fold {A S : Type} (l : list A) (acc : S) (body : S -> A -> M S) : M S :=
  match l with
  | [] => ret acc
  | x :: l' => acc' <- body acc x ;; for_fold l' acc' body
  end.

Fixpoint map_M {A B : Type} (f : A -> M B) (l : list A) : M (list B) :=
  match l with
  | [] => ret []
  | x :: l' => y <- f x ;; ys <- map_M f l' ;; ret (y :: ys)
  end.

(** [o.attr] on a value that may be None. *)
Definition attr {A : Type} (o : option A) (name : string) : M A :=
  match o with
  | Some a => ret a
  | None => raise (mk_exn AttributeError
              ("'NoneType' object has no attribute '" ++ name ++ "'")%string)
  end.

(** Heap of list objects; an address is an index, and a write to an address
    that was never allocated changes nothing. *)
Definition alloc (l : list string) : M addr :=
  fun s => (Ok (length (heap s)),
            {| history := history s; heap := heap s ++ [l] |}).

Definition deref (a : addr) : M (list string) :=
  fun s => (Ok (nth a (heap s) []), s).

Fixpoint heap_append (h : list (list string)) (a : addr) (x : string)
  : list (list string) :=
  match h, a with
  | [], _ => []
  | l :: h', O => (l ++ [x]) :: h'
  | l :: h', S a' => l :: heap_append h' a' x
  end.

Definition list_append (a : addr) (x : string) : M unit :=
  fun s => (Ok tt, {| history := history s; heap := heap_append (heap s) a x |}).

(** ** EnvironmentBuilder *)

Definition none_not_iterable : exn :=
  mk_exn TypeError "'NoneType' object is not iterable".

(** One pass of the per-subnet arithmetic of [instance_role]: the count for
    this subnet and the remainder left for the next ones. *)
Definition subnet_count (needed_per_subnet needed_remainder existing_in_subnet : Z)
  : Z * Z :=
  let count := needed_per_subnet - existing_in_subnet in
  if negb (needed_remainder =? 0) then (count + 1, needed_remainder - 1)
  else (count, needed_remainder).

(** The counts the loop of [instance_role] computes, subnet after subnet. *)
Fixpoint subnet_counts (needed_per_subnet needed_remainder : Z) (existing : list Z)
  : list Z :=
  match existing with
  | [] => []
  | e :: rest =>
      let (count, remainder') := subnet_count needed_per_subnet needed_remainder e in
      count :: subnet_counts needed_per_subnet remainder' rest
  end.

Definition by_key {B : Type} (x y : Z * B) : bool := fst x <=? fst y.

(** [subnets[size].pop()] on the size -> blocks dictionary of [subnets]. *)
Fixpoint pop_block (d : list (Z * list AddressBlock)) (size : Z)
  : outcome (AddressBlock * list (Z * list AddressBlock)) :=
  match d with
  | [] => Raise (mk_exn KeyError (str_of_Z size))
  | (k, l) :: d' =>
      if k =? size then
        match rev l with
        | [] => Raise (mk_exn IndexError "pop from empty list")
        | b :: front => Ok (b, (k, rev front) :: d')
        end
      else match pop_block d' size with
           | Ok (b, d'') => Ok (b, (k, l) :: d'')
           | Raise e => Raise e
           end
  end.

(** [subnets.setdefault(size, []).append(cidr)] *)
Fixpoint setdefault_append (d : list (Z * list AddressBlock)) (size : Z)
  (cidr : AddressBlock) : list (Z * list AddressBlock) :=
  match d with
  | [] => [(size, [cidr])]
  | (k, l) :: d' =>
      if k =? size then (k, l ++ [cidr]) :: d'
      else (k, l) :: setdefault_append d' size cidr
  end.

(** What each subnet is planned to hold from this pass before its own
    instances are subtracted: the loop's count plus [existing_in_subnet]. *)
Definition planned_shares (needed_per_subnet needed_remainder : Z)
  (existing : list Z) : list Z :=
  map (fun ce => fst ce + snd ce)
      (combine (subnet_counts needed_per_subnet needed_remainder existing) existing).

Section Builder.
Variable W : Cloud.
Variable vpc_name : string.

(** A call that the collaborators may refuse; [answer] is what it returns. *)
Definition perform {A : Type} (c : call) (answer : list call -> A) : M A :=
  fun s =>
    let s' := {| history := history s ++ [c]; heap := heap s |} in
    match fault W (history s) c with
    | Some e => (Raise e, s')
    | None => (Ok (answer (history s)), s')
    end.

(** A read of the collaborators' state. *)
Definition query {A : Type} (q : list call -> outcome A) : M A :=
  fun s => (q (history s), s).

Definition emit (msg : string) (lvl : level) : M unit :=
  perform (Emit msg lvl) (fun _ => tt).

Definition update_tags (r : resource) (tags : list (string * string)) : M unit :=
  perform (UpdateTags r tags) (fun _ => tt).

Definition repr_route (route : string * string) : string :=
  ("['" ++ fst route ++ "', '" ++ snd route ++ "']")%string.

Definition route_tables (route_cfg : dict RouteTableCfg) : M unit :=
  for_each route_cfg (fun '(rt_name, data) =>
    let longname := (evpc_name W ++ "-" ++ rt_name)%string in
    found <- query (fun h => get_route_table W h longname) ;;
    route_table <-
      match found with
      | Some rt => ret rt
      | None =>
          emit ("creating route_table (" ++ longname ++ ")")%string info ;;
          rt <- (if rt_main data
                 then perform GetMainRouteTable (new_route_table W)
                 else perform CreateRouteTable (new_route_table W)) ;;
          emit ("tagging route_table (Name:" ++ longname ++ ")")%string debug ;;
          update_tags (RouteTable rt) [("Name", longname)] ;;
          ret rt
      end ;;
    for_each (rt_routes data) (fun route =>
      let '(destination, target) := route in
      emit ("adding route " ++ repr_route route ++ " to route_table ("
              ++ longname ++ ")")%string info ;;
      if String.eqb (lower target) "internet_gateway" then
        gws <- query (internet_gateways W) ;;
        gw <- lift (py_index gws 0) ;;
        perform (CreateRoute route_table destination gw) (fun _ => tt)
      else ret tt)).

Definition subnets (subnet_cfg : dict SubnetCfg) : M unit :=
  let sizes := sorted Z.leb (map (fun x => sn_size (snd x)) subnet_cfg) in
  cidrs <- lift (allocate (evpc_cidr_block W) sizes) ;;
  let azones := evpc_azones W in
  let by_size :=
    fold_left (fun d '(size, cidr) => setdefault_append d size cidr)
              (combine sizes cidrs) [] in
  for_fold subnet_cfg by_size (fun by_size '(name, sn) =>
    let longname := (evpc_name W ++ "-" ++ name)%string in
    az_name <-
      match sn_availability_zone sn with
      | Some az_letter => ret (region_name W ++ az_letter)%string
      | None =>
          n <- lift (python_int (last_segment name)) ;;
          lift (py_index azones (n - 1))
      end ;;
    '(cidr, by_size') <- lift (pop_block by_size (sn_size sn)) ;;
    emit ("creating subnet " ++ str_cidr W cidr ++ " in " ++ az_name)%string info ;;
    subnet <- perform (CreateSubnet cidr az_name) (new_subnet W) ;;
    emit ("tagging subnet (Name:" ++ longname ++ ")")%string debug ;;
    update_tags (Subnet subnet)
      [("Name", longname);
       ("description", match sn_description sn with Some d => d | None => "" end)] ;;
    (if sn_public sn
     then perform (MapPublicIpOnLaunch subnet) (fun _ => tt)
     else ret tt) ;;
    ret by_size') ;;
  ret tt.

Definition associate_route_tables_with_subnets (subnet_cfg : dict SubnetCfg)
  : M unit :=
  for_each subnet_cfg (fun '(sn_name, sn_data) =>
    match sn_route_table sn_data with
    | None => ret tt
    | Some rt_name =>
        emit ("associating rt " ++ rt_name ++ " with sn " ++ sn_name)%string info ;;
        perform (AssociateRouteTableWithSubnet rt_name sn_name) (fun _ => tt)
    end).

Definition endpoints (route_tables : list string) : M unit :=
  if len route_tables =? 0 then ret tt
  else
    emit ("creating vpc endpoints in " ++ join ", " route_tables)%string info ;;
    perform (VpcEndpointCreateAll route_tables) (fun _ => tt).

Definition security_groups (security_group_cfg : dict (list RuleCfg)) : M unit :=
  for_each security_group_cfg (fun '(sg_name, rules) =>
    sg <- query (fun h => get_security_group W h sg_name) ;;
    match sg with
    | Some _ => ret tt
    | None =>
        let longname := (evpc_name W ++ "-" ++ sg_name)%string in
        emit ("creating security_group " ++ longname)%string info ;;
        security_group <-
          perform (CreateSecurityGroup longname longname) (new_security_group W) ;;
        emit ("tagging security_group (Name:" ++ longname ++ ")")%string debug ;;
        update_tags (SecurityGroup security_group) [("Name", longname)]
    end).

Definition security_group_rules (security_group_cfg : dict (list RuleCfg))
  : M unit :=
  for_each security_group_cfg (fun '(sg_name, rules) =>
    sg <- query (fun h => get_security_group W h sg_name) ;;
    permissions <- for_fold rules [] (fun permissions rule =>
      let '(src, protocol, ports) := rule in
      '(from_port, to_port) <- lift (get_port_range W ports protocol) ;;
      src_sg <- query (fun h => get_security_group W h src) ;;
      let permission :=
        {| IpProtocol := protocol; FromPort := from_port; ToPort := to_port;
           Source := match src_sg with
                     | None => IpRanges src
                     | Some g => UserIdGroupPairs g
                     end |} in
      emit ("'" ++ src ++ "' into '" ++ sg_name ++ "' over ports " ++ ports
                ++ " (" ++ upper protocol ++ ")")%string info ;;
      ret (permissions ++ [permission])) ;;
    sg_id <- attr sg "authorize_ingress" ;;
    perform (AuthorizeIngress sg_id permissions) (fun _ => tt)).

(** The body of the loop of [key_pairs]. *)
Definition ensure_key_pair (short_key_pair_name : string) : M unit :=
found <- query (fun h => get_key_pair W h short_key_pair_name) ;;
match found with
| None =>
    emit ("creating key pair " ++ short_key_pair_name)%string info ;;
    perform (CreateKeyPair short_key_pair_name) (fun _ => tt)
| Some _ => ret tt
end.

(** [key_pair_cfg] is the address of the caller's list: the append is seen
  by every holder of that list. *)
Definition key_pairs (key_pair_cfg : addr) : M unit :=
list_append key_pair_cfg "default" ;;
names <- deref key_pair_cfg ;;
for_each names ensure_key_pair.

(** The body of the per-subnet loop of [instance_role]; the loop state is the
    remainder still to hand out and the instances launched so far. *)
Definition launch_in_subnet (role_name : string) (role_data : RoleCfg)
  (ami : string) (key_pair : option string) (security_groups : list (option string))
  (needed_per_subnet : Z) (acc : Z * list string) (subnet : string)
  : M (Z * list string) :=
  let '(needed_remainder, role_instances) := acc in
  client_token <- perform Uuid4 (new_uuid W) ;;
  (* figure out how many instances this subnet needs to create ... *)
  in_subnet <- query (fun h => get_role_in_subnet W h role_name subnet) ;;
  let existing_in_subnet := len in_subnet in
  let '(count, needed_remainder') :=
    subnet_count needed_per_subnet needed_remainder existing_in_subnet in
  if count =? 0 then
    (* skip this subnet, it doesn't need to launch any instances. *)
    ret (needed_remainder', role_instances)
  else
    subnet_name <- query (fun h => subnet_name_tag W h subnet) ;;
    emit (str_of_Z count ++ " instances of role " ++ role_name
            ++ " launching into " ++ subnet_name)%string info ;;
    key_name <- attr key_pair "name" ;;
    sg_ids <- lift (get_ids W security_groups) ;;
    (* create a batch of instances in subnet! *)
    instances <-
      perform (CreateInstances subnet ami (role_instance_type role_data)
                 count count key_name sg_ids client_token)
              (fun h => new_instances W h subnet count) ;;
    (* accumulate all new instances into a single list. *)
    ret (needed_remainder', role_instances ++ instances).

Definition instance_role (amis : dict (dict string)) (role_name : string)
  (role_data : RoleCfg) (desired_count : Z) : M (option (list Instance)) :=
  emit ("creating role: " ++ role_name)%string info ;;
  ami_ref <- lift (match role_ami role_data with
                   | Some r => Ok r
                   | None => Raise (mk_exn KeyError "'ami'")
                   end) ;;
  by_region <- lift (dict_getitem amis ami_ref) ;;
  ami <- lift (dict_getitem by_region (region_name W)) ;;
  key_pair <- query (fun h => get_key_pair W h
                (match role_key_pair role_data with
                 | Some k => k
                 | None => "default"
                 end)) ;;
  security_groups <-
    map_M (fun n => query (fun h => get_security_group W h n))
          (role_security_groups role_data) ;;
  subnets <-
    map_M (fun n => query (fun h => get_subnet W h n)) (role_subnets role_data) ;;
  if len subnets =? 0 then
    emit ("no subnets found for role: " ++ role_name)%string warning ;;
    (* exit early. *)
    ret None
  else
    (* sort by subnets by amount of instances, smallest first. *)
    keyed <- map_M (fun sn =>
               sn_id <- attr sn "instances" ;;
               k <- query (fun h => subnet_instances_len W h sn_id) ;;
               ret (k, sn_id)) subnets ;;
    let subnets := map snd (sorted by_key keyed) in
    existing <- query (fun h => get_role W h role_name) ;;
    let existing_count := len existing in
    if desired_count <=? existing_count then
      (* for now we exit early, maybe terminate extras... *)
      v <- lift (py_add (PyInt existing_count) (PyStr " ")) ;;
      v' <- lift (py_add v (PyInt desired_count)) ;;
      emit (py_str v') debug ;;
      ret None
    else
      let needed_count := desired_count - existing_count in
      let needed_per_subnet := needed_count / len subnets in
      let needed_remainder := needed_count mod len subnets in
      '(_, role_instances) <-
        for_fold subnets (needed_remainder, [])
          (launch_in_subnet role_name role_data ami key_pair security_groups
             needed_per_subnet) ;;
      enriched <- query (fun h => get_instances W h role_instances) ;;
      ret (Some enriched).

(** The body of the loop over the volumes of one instance. *)
Definition tag_volume (instance : Instance) (hostname : string) (volume : string)
  : M unit :=
  emit ("tagging volumes for instance " ++ inst_identity instance
          ++ " (Name:" ++ hostname ++ ")")%string info ;;
  update_tags (Volume volume) [("Name", hostname)].

Definition tag_instances (role_name : string) (instances : option (list Instance))
  : M unit :=
  match instances with
  | None => raise none_not_iterable
  | Some instances =>
      for_each instances (fun instance =>
        let instance_id := lstrip "i-" (inst_id instance) in
        let hostname :=
          (evpc_name W ++ "-" ++ role_name ++ "-" ++ instance_id)%string in
        emit ("tagging instance " ++ inst_identity instance ++ " (Name:" ++ hostname
                ++ ", role:" ++ role_name ++ ")")%string info ;;
        update_tags (InstanceRes (inst_id instance))
                    [("Name", hostname); ("role", role_name)] ;;
        volumes <- query (fun h => instance_volumes W h (inst_id instance)) ;;
        for_each volumes (tag_volume instance hostname))
  end.

(** The body of the first loop of [instance_roles]; the loop state is the
    [roles] dictionary and the [roles_with_eips] list. *)
Definition role_step (amis : dict (dict string))
  (acc : dict (option (list Instance)) * list string) (item : string * RoleCfg)
  : M (dict (option (list Instance)) * list string) :=
  let '(roles, roles_with_eips) := acc in
  let '(role_name, role_data) := item in
  let desired_count := match role_count role_data with Some c => c | None => 0 end in
  let roles_with_eips :=
    if role_eip role_data then roles_with_eips ++ [role_name]
    else roles_with_eips in
  role_instances <- instance_role amis role_name role_data desired_count ;;
  ret (dict_set roles role_name role_instances, roles_with_eips).

Definition instance_roles (amis : dict (dict string))
  (instance_role_cfg : dict RoleCfg) : M unit :=
  '(roles, roles_with_eips) <-
    for_fold instance_role_cfg ([], []) (role_step amis) ;;
  (* tag instances and volumes. *)
  for_each roles (fun '(role_name, role_instances) =>
    tag_instances role_name role_instances) ;;
  (* deal with EIP roles. *)
  for_each roles_with_eips (fun role_name =>
    role_instances <- lift (dict_getitem roles role_name) ;;
    match role_instances with
    | None => raise none_not_iterable
    | Some role_instances =>
        for_each role_instances (fun instance =>
          emit ("allocating eip and associating with "
                  ++ inst_identity instance)%string info ;;
          eip <- perform (AllocateEip (inst_id instance)) (new_eip W) ;;
          emit ("allocated eip " ++ eip ++ " and associated with "
                  ++ inst_identity instance)%string info)
    end).

Definition wait_until_running : M unit :=
  instances <- query (evpc_instances W) ;;
  for_each instances (fun instance =>
    emit ("waiting for " ++ inst_identity instance ++ " to start")%string info ;;
    perform (WaitUntilRunning (inst_id instance)) (fun _ => tt)).

Definition lock_instances : M unit :=
  try_except
    (emit "locking instances to prevent termination" info ;;
     perform LockInstances (fun _ => tt))
    (fun _ => true)
    (fun _ => emit "could not lock instances, continuing..." warning).

(** The statements of [_apply_all] after [self.amis] is set, in program
    order. *)
Definition pipeline (amis : dict (dict string)) (config : Config) : list (M unit) :=
  [ (* attach EnrichedVPC to self. *)
    perform (NewEnrichedVPC vpc_name) (fun _ => tt);
    (* the order of these method calls matters for new VPCs. *)
    route_tables (cfg_route_tables config);
    subnets (cfg_subnets config);
    associate_route_tables_with_subnets (cfg_subnets config);
    endpoints (cfg_endpoints config);
    (key_pair_cfg <- match cfg_key_pairs config with
                     | Some a => ret a
                     | None => alloc []
                     end ;;
     key_pairs key_pair_cfg);
    security_groups (cfg_security_groups config);
    instance_roles amis (cfg_instance_roles config);
    security_group_rules (cfg_security_groups config);
    wait_until_running;
    lock_instances;
    emit "done! don't you look awesome. : )" info ].

(** Statements run one after the other; the first exception ends the run. *)
Definition sequence (stmts : list (M unit)) : M unit :=
  for_each stmts (fun stmt => stmt).

Definition _apply_all (config : Config) : M unit :=
  (* Make sure amis is setup early. *)
  amis <- lift (match cfg_amis config with
                | Some a => Ok a
                | None => Raise (mk_exn KeyError "'amis'")
                end) ;;
  sequence (pipeline amis config).

(** Build the environment specified in the config. *)
Definition apply_all (config : Config) : M unit :=
  try_except (_apply_all config) is_Exception (fun e =>
    emit "Botoform failed to build environment!" error ;;
    emit ("Failure reason: " ++ exn_str e)%string error ;;
    emit (format_exc W e) debug ;;
    emit "Tearing down failed environment!" error ;;
    (* self.evpc.terminate() is commented out *)
    raise e).
End Builder.

(** The pipeline statement a collaborator call belongs to (its index in
    [pipeline]); the logger is used by all of them. *)
Definition stage_of (c : call) : option nat :=
  match c with
  | Emit _ _ => None
  | NewEnrichedVPC _ => Some 0%nat
  | GetMainRouteTable | CreateRouteTable | CreateRoute _ _ _
  | UpdateTags (RouteTable _) _ => Some 1%nat
  | CreateSubnet _ _ | MapPublicIpOnLaunch _ | UpdateTags (Subnet _) _ => Some 2%nat
  | AssociateRouteTableWithSubnet _ _ => Some 3%nat
  | VpcEndpointCreateAll _ => Some 4%nat
  | CreateKeyPair _ => Some 5%nat
  | CreateSecurityGroup _ _ | UpdateTags (SecurityGroup _) _ => Some 6%nat
  | Uuid4 | CreateInstances _ _ _ _ _ _ _ _ | AllocateEip _
  | UpdateTags (InstanceRes _) _ | UpdateTags (Volume _) _ => Some 7%nat
  | AuthorizeIngress _ _ => Some 8%nat
  | WaitUntilRunning _ => Some 9%nat
  | LockInstances => Some 10%nat
  end.

Definition in_stage (k : nat) (c : call) : Prop :=
  stage_of c = None \/ stage_of c = Some k.

Definition stages_of (calls : list call) : list nat :=
  flat_map (fun c => match stage_of c with Some k => [k] | None => [] end) calls.

(** ** A concrete cloud for running the builder

    No call fails except, on demand, [lock_instances]; a key pair exists once
    it has been created; [members] are the role's instances in the VPC and
    [table] gives, per subnet, its instance count and the role's instances in
    it; the VPC lists the members and every instance launched so far; [str]
    of a block is its dotted quad and prefix length. *)

(** [str(block)]: dotted quad, a slash, the prefix length. *)
Definition str_of_block (b : AddressBlock) : string :=
  (str_of_Z (base b / 16777216 mod 256) ++ "." ++
   str_of_Z (base b / 65536 mod 256) ++ "." ++
   str_of_Z (base b / 256 mod 256) ++ "." ++
   str_of_Z (base b mod 256) ++ "/" ++ str_of_Z (prefixlen b))%string.

Definition demo_new_instances (sn : string) (count : Z) : list string :=
  map (fun k => ("i-" ++ sn ++ "-" ++ str_of_Z (Z.of_nat k))%string)
      (seq 0 (Z.to_nat count)).

Definition launched_ids (h : list call) : list string :=
  flat_map (fun c => match c with
                     | CreateInstances sn _ _ n _ _ _ _ => demo_new_instances sn n
                     | _ => []
                     end) h.

Definition enriched (id : string) : Instance :=
  {| inst_id := id; inst_identity := id |}.

Definition is_create_key_pair (n : string) (c : call) : bool :=
  match c with CreateKeyPair m => String.eqb n m | _ => false end.

Definition some_ids (l : list (option string)) : list string :=
  flat_map (fun o => match o with Some x => [x] | None => [] end) l.

Definition demo_cloud (members : list string)
  (table : dict (Z * list string)) (lock_fails : bool) : Cloud :=
  {| region_name := "us-east-1";
     evpc_name := "demo";
     evpc_cidr_block := mk_block 167772160 24;
     evpc_azones := ["us-east-1a"; "us-east-1b"];
     fault := fun _ c =>
       match c with
       | LockInstances =>
           if lock_fails then Some (mk_exn ClientError "OperationNotPermitted")
           else None
       | _ => None
       end;
     get_route_table := fun _ _ => Ok None;
     new_route_table := fun _ => "rtb-1";
     internet_gateways := fun _ => Ok ["igw-1"];
     new_subnet := fun _ => "subnet-1";
     get_security_group := fun _ n => Ok (Some ("sg-" ++ n)%string);
     new_security_group := fun _ => "sg-1";
     get_key_pair := fun h n =>
       Ok (if existsb (is_create_key_pair n) h then Some n else None);
     get_subnet := fun _ n => Ok (Some n);
     subnet_instances_len := fun _ sn =>
       Ok (match dict_get table sn with Some (k, _) => k | None => 0 end);
     get_role := fun _ _ => Ok members;
     get_role_in_subnet := fun _ _ sn =>
       Ok (match dict_get table sn with Some (_, l) => l | None => [] end);
     new_instances := fun _ sn count => demo_new_instances sn count;
     get_instances := fun _ ids => Ok (map enriched ids);
     evpc_instances := fun h => Ok (map enriched (members ++ launched_ids h));
     instance_volumes := fun _ id => Ok [("vol-" ++ id)%string];
     new_eip := fun _ => "203.0.113.7";
     new_uuid := fun h => ("token-" ++ str_of_Z (len h))%string;
     get_port_range := fun _ _ => Ok (22, 22);
     get_ids := fun l => Ok (some_ids l);
     subnet_name_tag := fun _ sn => Ok ("demo-" ++ sn)%string;
     format_exc := fun e => ("Traceback (most recent call last): " ++ exn_str e)%string;
     str_cidr := str_of_block |}.

Definition demo_amis : dict (dict string) :=
  [("base", [("us-east-1", "ami-123")]); ("west-only", [("us-west-2", "ami-456")])].

Definition demo_role (count : Z) (ami : string) (subnets : list string) : RoleCfg :=
  {| role_count := Some count; role_eip := false; role_ami := Some ami;
     role_instance_type := Some "t2.micro"; role_key_pair := None;
     role_security_groups := ["web"]; role_subnets := subnets |}.

Definition demo_config (roles : dict RoleCfg) : Config :=
  {| cfg_amis := Some demo_amis;
     cfg_route_tables := [];
     cfg_subnets := [];
     cfg_endpoints := [];
     cfg_key_pairs := None;
     cfg_security_groups := [("web", [("0.0.0.0/0", "tcp", "22")])];
     cfg_instance_roles := roles |}.

(** The state before a build, and the state once the key pair stage has run. *)
Definition fresh : state := {| history := []; heap := [] |}.
Definition keyed_state : state :=
  {| history := [CreateKeyPair "default"]; heap := [["default"]] |}.

(** Scenarios. *)

(** Subnet a already holds three instances of the role, subnet b none. *)
Definition uneven_cloud : Cloud :=
  demo_cloud ["i-1"; "i-2"; "i-3"]
             [("subnet-a", (3, ["i-1"; "i-2"; "i-3"])); ("subnet-b", (0, []))] false.

Definition empty_cloud : Cloud := demo_cloud [] [] false.

Definition unlockable_cloud : Cloud := demo_cloud [] [] true.

(** A role without subnets next to a well-formed one. *)
Definition no_subnets_config : Config :=
  demo_config [("web", demo_role 1 "base" []);
               ("db", demo_role 1 "base" ["subnet-b"])].

(** A role whose image has no entry for us-east-1 next to a well-formed one. *)
Definition unresolved_config : Config :=
  demo_config [("web", demo_role 1 "west-only" ["subnet-a"]);
               ("db", demo_role 1 "base" ["subnet-b"])].

Definition one_role_config : Config :=
  demo_config [("db", demo_role 1 "base" ["subnet-b"])].

(** ** Predicates of the statements *)

(** The counts of the [create_instances] calls of a history, in order. *)
Definition launched_counts (calls : list call) : list Z :=
  flat_map (fun c => match c with
                     | CreateInstances _ _ _ n _ _ _ _ => [n]
                     | _ => []
                     end) calls.

(** The layout without padding: each block starts where the previous ends. *)
Fixpoint place (cursor : Z) (reqs : list (nat * Z)) : list (nat * AddressBlock) :=
  match reqs with
  | [] => []
  | (i, c) :: rest => (i, block_of cursor c) :: place (cursor + c) rest
  end.

(** [emits P m]: whatever the state, [m] only appends calls satisfying [P]
    to the history. *)
Definition emits (P : call -> Prop) {A} (m : M A) : Prop :=
  forall s, exists evs,
    history (snd (m s)) = history s ++ evs /\ Forall P evs.

(** [ordered_from k m]: the calls [m] makes come stage after stage, none of a
    stage below [k]. *)
Definition ordered_from (k : nat) (m : M unit) : Prop :=
  forall s, exists evs,
    history (snd (m s)) = history s ++ evs /\
    StronglySorted le (stages_of evs) /\ Forall (le k) (stages_of evs).

(** The role's image reference has no entry for the region of the VPC. *)
Definition ami_unresolved (W : Cloud) (amis : dict (dict string))
  (role_data : RoleCfg) : Prop :=
  exists ami_ref,
    role_ami role_data = Some ami_ref /\
    forall by_region,
      dict_get amis ami_ref = Some by_region ->
      dict_get by_region (region_name W) = None.

(** The claim as the specification has it: the build completes, and every
    other role is still processed. *)
Definition unresolved_role_is_skipped (W : Cloud) (vpc_name : string)
  (config : Config) (amis : dict (dict string)) (s : state) : Prop :=
  forall name role_data,
    In (name, role_data) (cfg_instance_roles config) ->
    ami_unresolved W amis role_data ->
    (exists s', apply_all W vpc_name config s = (Ok tt, s')) /\
    forall other other_data,
      In (other, other_data) (cfg_instance_roles config) ->
      In (Emit ("creating role: " ++ other)%string info)
         (history (snd (apply_all W vpc_name config s))).


Definition key_pair_present (W : Cloud) (h : list call) (n : string) : Prop :=
  exists kp, get_key_pair W h n = Ok (Some kp).

(** The phase of [instance_roles] a call belongs to: launching, tagging,
    elastic IPs. *)
Definition role_phase (c : call) : option nat :=
  match c with
  | Uuid4 | CreateInstances _ _ _ _ _ _ _ _ => Some 0%nat
  | UpdateTags _ _ => Some 1%nat
  | AllocateEip _ => Some 2%nat
  | _ => None
  end.

Definition ranks_of (rank : call -> option nat) (calls : list call) : list nat :=
  flat_map (fun c => match rank c with Some k => [k] | None => [] end) calls.

Definition in_rank (rank : call -> option nat) (k : nat) (c : call) : Prop :=
  rank c = None \/ rank c = Some k.

Definition is_allocate_eip (c : call) : bool :=
  match c with AllocateEip _ => true | _ => false end.

(** [preserves R m]: the state [m] ends in is related by [R] to the state it
    started from. *)
Definition preserves (R : state -> state -> Prop) {A} (m : M A) : Prop :=
  forall s, R s (snd (m s)).

Definition same_heap (s s' : state) : Prop := heap s' = heap s.

(** The list object at [a] is still there and holds what it held. *)
Definition same_at (a : addr) (s s' : state) : Prop :=
  (a < length (heap s))%nat ->
  (a < length (heap s'))%nat /\ nth a (heap s') [] = nth a (heap s) [].

(** What a history holds of each kind of call, in order. *)
Definition associations (calls : list call) : list (string * string) :=
  flat_map (fun c => match c with
                     | AssociateRouteTableWithSubnet rt sn => [(rt, sn)]
                     | _ => []
                     end) calls.

Definition waits (calls : list call) : list string :=
  flat_map (fun c => match c with WaitUntilRunning i => [i] | _ => [] end) calls.



(** The associations the configuration asks for, in iteration order. *)
Definition configured_associations (subnet_cfg : dict SubnetCfg)
  : list (string * string) :=
  flat_map (fun item => match sn_route_table (snd item) with
                        | Some rt => [(rt, fst item)]
                        | None => []
                        end) subnet_cfg.





Definition created_subnets (calls : list call) : list (AddressBlock * string) :=
  flat_map (fun c => match c with CreateSubnet b az => [(b, az)] | _ => [] end) calls.

(** The (size, block) pairs of the size -> blocks dictionary of [subnets]. *)
Definition entries (d : list (Z * list AddressBlock)) : list (Z * AddressBlock) :=
  flat_map (fun kl => map (pair (fst kl)) (snd kl)) d.

(** The zone [subnets] picks: the configured letter after the region name, or
    the zone the number ending the subnet's name points at. *)
Definition zone_of (W : Cloud) (item : string * SubnetCfg) (az : string) : Prop :=
  match sn_availability_zone (snd item) with
  | Some az_letter => az = (region_name W ++ az_letter)%string
  | None => exists n, python_int (last_segment (fst item)) = Ok n /\
                      py_index (evpc_azones W) (n - 1) = Ok az
  end.

Definition is_emit (c : call) : bool :=
  match c with Emit _ _ => true | _ => false end.

Definition unchanged (s s' : state) : Prop := s' = s.

(** The launches of a history: subnet and count of every [create_instances]
    call, in order. *)
Definition launches (calls : list call) : list (string * Z) :=
  flat_map (fun c => match c with
                     | CreateInstances sn _ _ n _ _ _ _ => [(sn, n)]
                     | _ => []
                     end) calls.

(** The first log line of [instance_role]. *)
Definition role_log (role_name : string) : call :=
  Emit ("creating role: " ++ role_name)%string info.

Definition nonzero (p : string * Z) : bool := negb (snd p =? 0).

(** The number of instances of the role in a subnet, as the VPC answers
    after the calls [h]. *)
Definition role_occupancy (W : Cloud) (h : list call) (role_name sn : string) : Z :=
  match get_role_in_subnet W h role_name sn with
  | Ok l => len l
  | Raise _ => 0
  end.

(** The passes of the loop of [instance_role] over [walk], from the history
    [h] on: each pass draws its token, the subnet's answer to "which
    instances of the role do you hold" is the one given right after that
    token, and whatever else the pass calls comes before the next token. *)
Fixpoint walked (W : Cloud) (role_name : string) (h : list call)
  (walk : list string) (answers : list (list string)) (evs : list call) : Prop :=
  match walk, answers with
  | [], [] => evs = []
  | sn :: walk', ans :: answers' =>
      get_role_in_subnet W (h ++ [Uuid4]) role_name sn = Ok ans /\
      exists launch rest,
        evs = Uuid4 :: launch ++ rest /\
        ~ In Uuid4 launch /\
        walked W role_name (h ++ Uuid4 :: launch) walk' answers' rest
  | _, _ => False
  end.

(** The claim as the specification has it: the listed subnets are walked by
    ascending number of the role's instances in them; the first [remainder]
    get base + 1 and the rest base, less the role's instances found there. *)
Definition remainder_by_role_occupancy (W : Cloud) (amis : dict (dict string))
  (role_name : string) (role_data : RoleCfg) (desired_count : Z) (s : state)
  : Prop :=
  forall l s' existing evs,
    instance_role W amis role_name role_data desired_count s = (Ok (Some l), s') ->
    get_role W (history s ++ [role_log role_name]) role_name = Ok existing ->
    history s' = (history s ++ [role_log role_name]) ++ evs ->
    exists walk,
      let occupancy := role_occupancy W (history s) role_name in
      let needed := desired_count - len existing in
      StronglySorted Z.le (map occupancy walk) /\
      launches evs =
        filter nonzero
          (combine walk
             (subnet_counts (needed / len walk) (needed mod len walk)
                (map occupancy walk))).

(** What a completed pass of [instance_role] has done: the role had fewer
    instances than desired; each listed subnet was resolved and keyed by the
    number of all its instances; the walk is the subnets sorted by that key;
    each was asked for the role's instances in it right after its token; with
    base and remainder taken from the needed count, the first [remainder]
    subnets of the walk have the share base + 1 and the others base, and each
    launch is the share less the role's instances found in the subnet, when
    that is not 0. *)
Definition fair_pass (W : Cloud) (role_name : string) (role_data : RoleCfg)
  (desired_count : Z) (s s' : state) : Prop :=
  exists existing keyed answers evs,
    let h := history s ++ [role_log role_name] in
    let walk := sorted by_key keyed in
    let needed := desired_count - len existing in
    let zones := len (role_subnets role_data) in
    let shares :=
      repeat (needed / zones + 1) (Z.to_nat (needed mod zones))
        ++ repeat (needed / zones) (length walk - Z.to_nat (needed mod zones)) in
    get_role W h role_name = Ok existing /\
    len existing < desired_count /\
    1 <= zones /\
    Forall2 (fun name k =>
               get_subnet W h name = Ok (Some (snd k)) /\
               subnet_instances_len W h (snd k) = Ok (fst k))
            (role_subnets role_data) keyed /\
    Permutation walk keyed /\
    StronglySorted Z.le (map fst walk) /\
    walked W role_name h (map snd walk) answers evs /\
    history s' = h ++ evs /\
    launches evs =
      filter nonzero
        (combine (map snd walk)
           (map (fun pa => fst pa - len (snd pa)) (combine shares answers))) /\
    total shares = needed /\
    len (filter (Z.eqb (needed / zones + 1)) shares) = needed mod zones.

(** Subnet s2 is the busiest but holds none of the role's instances; s3 holds
    the role's only instance. *)
Definition skewed_cloud : Cloud :=
  demo_cloud ["i-1"]
             [("s1", (0, [])); ("s2", (5, [])); ("s3", (1, ["i-1"]))] false.

(** The lines [apply_all] logs when the build fails with [e]. *)
Definition failure_report (W : Cloud) (e : exn) : list call :=
  [Emit "Botoform failed to build environment!" error;
   Emit ("Failure reason: " ++ exn_str e)%string error;
   Emit (format_exc W e) debug;
   Emit "Tearing down failed environment!" error].

(** The calls [lines] can be made one after the other from the history [h]:
    none is refused. *)
Fixpoint writes (W : Cloud) (h : list call) (lines : list call) : Prop :=
  match lines with
  | [] => True
  | c :: rest => fault W h c = None /\ writes W (h ++ [c]) rest
  end.


(** Two subnets numbered by their names around one with a configured zone. *)
Definition three_subnets : dict SubnetCfg :=
  [("private-1", {| sn_size := 64; sn_availability_zone := None;
                    sn_description := None; sn_public := false;
                    sn_route_table := None |});
   ("public-1", {| sn_size := 32; sn_availability_zone := Some "b";
                   sn_description := None; sn_public := true;
                   sn_route_table := None |});
   ("private-2", {| sn_size := 64; sn_availability_zone := None;
                    sn_description := None; sn_public := false;
                    sn_route_table := None |})].

(** The state after role db has launched its two instances into subnet-b. *)
Definition two_launched : state :=
  snd (instance_roles empty_cloud demo_amis
         [("db", demo_role 2 "base" ["subnet-b"])] keyed_state).

(** * Properties *)

Unset Implicit Arguments.

(** ** Sorting *)

Section StableSortFacts.
Variable A : Type.
Variable leb : A -> A -> bool.

Lemma insert_sorted_perm x l : Permutation (insert_sorted leb x l) (x :: l).
Proof.
  induction l as [|y l IH]; simpl; [reflexivity|].
  destruct (leb x y); [reflexivity|].
  rewrite IH. apply perm_swap.
Qed.

Lemma sorted_perm l : Permutation (sorted leb l) l.
Proof.
  induction l as [|x l IH]; simpl; [constructor|].
  rewrite insert_sorted_perm. now constructor.
Qed.

Lemma sorted_length l : length (sorted leb l) = length l.
Proof. apply Permutation_length, sorted_perm. Qed.

Hypothesis leb_total : forall x y, leb x y = true \/ leb y x = true.
Hypothesis leb_trans :
  forall x y z, leb x y = true -> leb y z = true -> leb x z = true.

Lemma insert_sorted_ordered x l :
  StronglySorted (fun a b => leb a b = true) l ->
  StronglySorted (fun a b => leb a b = true) (insert_sorted leb x l).
Proof.
  induction 1 as [|y l Hl IH Hy]; simpl.
  - repeat constructor.
  - destruct (leb x y) eqn:E.
    + constructor; [now constructor|].
      constructor; [exact E|].
      eapply Forall_impl; [|exact Hy]. intros a Ha. now apply leb_trans with y.
    + constructor; [exact IH|].
      eapply Permutation_Forall; [symmetry; apply insert_sorted_perm|].
      constructor; [|exact Hy].
      destruct (leb_total x y) as [H|H]; congruence.
Qed.

Lemma sorted_ordered l : StronglySorted (fun a b => leb a b = true) (sorted leb l).
Proof.
  induction l as [|x l IH]; simpl; [constructor|].
  now apply insert_sorted_ordered.
Qed.
End StableSortFacts.

Lemma StronglySorted_map {A B : Type} (f : A -> B) (R : A -> A -> Prop)
  (Q : B -> B -> Prop) (l : list A) :
  (forall x y, R x y -> Q (f x) (f y)) ->
  StronglySorted R l -> StronglySorted Q (map f l).
Proof.
  intros HRQ. induction 1 as [|x l Hl IH Hx]; simpl; constructor; auto.
  rewrite Forall_map. eapply Forall_impl; [|exact Hx]. intros; now apply HRQ.
Qed.

Lemma ascending_unique (l1 l2 : list nat) :
  StronglySorted le l1 -> StronglySorted le l2 -> Permutation l1 l2 -> l1 = l2.
Proof.
  revert l2. induction l1 as [|a l1 IH]; intros l2 H1 H2 HP.
  - now apply Permutation_nil in HP.
  - destruct l2 as [|b l2].
    + symmetry in HP. now apply Permutation_nil in HP.
    + inversion H1 as [|? ? H1' Ha]; inversion H2 as [|? ? H2' Hb]; subst.
      assert (a = b) as ->.
      { assert (In a (b :: l2)) as Ia
          by (eapply Permutation_in; [exact HP | now left]).
        assert (In b (a :: l1)) as Ib
          by (eapply Permutation_in; [symmetry; exact HP | now left]).
        rewrite Forall_forall in Ha, Hb.
        destruct Ia as [->|Ia]; [reflexivity|].
        destruct Ib as [->|Ib]; [reflexivity|].
        apply Hb in Ia. apply Ha in Ib. lia. }
      f_equal. apply IH; auto. now apply Permutation_cons_inv in HP.
Qed.

Lemma seq_ascending (n s : nat) : StronglySorted le (seq s n).
Proof.
  revert s. induction n as [|n IH]; intros s; simpl; constructor; auto.
  rewrite Forall_forall. intros x Hx. apply in_seq in Hx. lia.
Qed.

(** ** The allocator *)

Lemma pow2_pos c : is_pow2 c -> 0 < c.
Proof. intros [k [Hk ->]]. now apply Z.pow_pos_nonneg. Qed.

Lemma pow2_divide a b : is_pow2 a -> is_pow2 b -> a <= b -> (a | b).
Proof.
  intros [j [Hj ->]] [k [Hk ->]] Hle.
  apply Z.pow_le_mono_r_iff in Hle; try lia.
  exists (2 ^ (k - j)). rewrite <- Z.pow_add_r by lia. f_equal. lia.
Qed.

Lemma align_up_aligned cursor c : 0 < c -> (c | cursor) -> align_up cursor c = cursor.
Proof.
  intros Hc [q ->]. unfold align_up.
  replace (q * c + c - 1) with (c - 1 + q * c) by lia.
  rewrite Z.div_add by lia. rewrite Z.div_small by lia. lia.
Qed.

Lemma capacity_block_of start c : is_pow2 c -> capacity (block_of start c) = c.
Proof.
  intros [k [Hk ->]]. unfold capacity, block_of; cbn [prefixlen].
  rewrite Z.log2_pow2 by lia. f_equal. lia.
Qed.

Lemma assign_place reqs : forall limit cursor,
  StronglySorted (fun x y => by_size_desc x y = true) reqs ->
  Forall (fun r => is_pow2 (snd r)) reqs ->
  (forall r, In r reqs -> (snd r | cursor)) ->
  cursor + total (map snd reqs) <= limit ->
  assign limit cursor reqs = Ok (place cursor reqs).
Proof.
  induction reqs as [|[i c] rest IH]; intros limit cursor Hs Hp Hd Hfit; simpl.
  - reflexivity.
  - inversion Hs as [|? ? Hs' Hhd]; subst.
    inversion Hp as [|? ? Hc Hp']; subst. simpl in *.
    assert (0 < c) as Hpos by now apply pow2_pos.
    assert (0 <= total (map snd rest)) as Hnn.
    { clear -Hp'. induction Hp' as [|r l Hr _ IHl]; simpl; [lia|].
      apply pow2_pos in Hr. lia. }
    rewrite align_up_aligned by (auto; apply (Hd (i, c)); now left).
    destruct (limit <? cursor + c) eqn:E; [apply Z.ltb_lt in E; lia|].
    rewrite IH; auto; try lia.
    intros r Hr. apply Z.divide_add_r; [apply Hd; now right|].
    rewrite Forall_forall in Hhd, Hp'.
    apply pow2_divide; auto.
    specialize (Hhd r Hr). unfold by_size_desc in Hhd. simpl in Hhd.
    now apply Z.leb_le.
Qed.

Lemma place_In reqs : forall cursor i b,
  Forall (fun r => is_pow2 (snd r)) reqs ->
  In (i, b) (place cursor reqs) ->
  In (i, capacity b) reqs /\ cursor <= base b /\
  block_end b <= cursor + total (map snd reqs).
Proof.
  induction reqs as [|[j c] rest IH]; intros cursor i b Hp Hin; simpl in *.
  - contradiction.
  - inversion Hp as [|? ? Hc Hp']; subst. simpl in *.
    assert (0 < c) as Hpos by now apply pow2_pos.
    assert (0 <= total (map snd rest)) as Hnn.
    { clear -Hp'. induction Hp' as [|r l Hr _ IHl]; simpl; [lia|].
      apply pow2_pos in Hr. lia. }
    destruct Hin as [Heq|Hin].
    + inversion Heq; subst. unfold block_end.
      rewrite capacity_block_of by assumption. simpl. split; [now left|lia].
    + destruct (IH _ _ _ Hp' Hin) as (H1 & H2 & H3).
      split; [now right|lia].
Qed.

Lemma place_disjoint reqs : forall cursor i j bi bj,
  Forall (fun r => is_pow2 (snd r)) reqs ->
  In (i, bi) (place cursor reqs) -> In (j, bj) (place cursor reqs) ->
  i <> j -> disjoint bi bj.
Proof.
  induction reqs as [|[k c] rest IH]; intros cursor i j bi bj Hp Hi Hj Hne;
    simpl in *; [contradiction|].
  inversion Hp as [|? ? Hc Hp']; subst. simpl in *.
  destruct Hi as [Hi|Hi], Hj as [Hj|Hj].
  - inversion Hi; inversion Hj; subst. contradiction.
  - inversion Hi; subst. apply (place_In _ _ _ _ Hp') in Hj.
    left. unfold block_end. rewrite capacity_block_of by assumption. simpl. lia.
  - inversion Hj; subst. apply (place_In _ _ _ _ Hp') in Hi.
    right. unfold block_end at 1. rewrite capacity_block_of by assumption. simpl. lia.
  - eapply IH; eauto.
Qed.

Lemma In_indexed_from (sizes : list Z) : forall s i c,
  In (i, c) (combine (seq s (length sizes)) sizes) ->
  (s <= i)%nat /\ nth_error sizes (i - s) = Some c.
Proof.
  induction sizes as [|x sizes IH]; intros s i c Hin; simpl in *; [contradiction|].
  destruct Hin as [Heq|Hin].
  - inversion Heq; subst. rewrite Nat.sub_diag. auto.
  - apply IH in Hin as [Hle Hn]. split; [lia|].
    replace (i - s)%nat with (S (i - S s)) by lia. exact Hn.
Qed.

Lemma map_fst_indexed sizes : map fst (indexed sizes) = seq 0 (length sizes).
Proof.
  unfold indexed. generalize 0%nat.
  induction sizes as [|x sizes IH]; intros s; simpl; [reflexivity|].
  now rewrite IH.
Qed.

Lemma map_snd_indexed sizes : map snd (indexed sizes) = sizes.
Proof.
  unfold indexed. generalize 0%nat.
  induction sizes as [|x sizes IH]; intros s; simpl; [reflexivity|].
  now rewrite IH.
Qed.

Lemma map_fst_place reqs : forall cursor, map fst (place cursor reqs) = map fst reqs.
Proof.
  induction reqs as [|[i c] rest IH]; intros cursor; simpl; [reflexivity|].
  now rewrite IH.
Qed.

Lemma total_perm l1 l2 : Permutation l1 l2 -> total l1 = total l2.
Proof. induction 1; simpl; lia. Qed.

Lemma by_size_desc_total x y : by_size_desc x y = true \/ by_size_desc y x = true.
Proof. unfold by_size_desc. rewrite !Z.leb_le. lia. Qed.

Lemma by_size_desc_trans x y z :
  by_size_desc x y = true -> by_size_desc y z = true -> by_size_desc x z = true.
Proof. unfold by_size_desc. rewrite !Z.leb_le. lia. Qed.

Lemma by_position_total {B} (x y : nat * B) :
  by_position x y = true \/ by_position y x = true.
Proof. unfold by_position. rewrite !Nat.leb_le. lia. Qed.

Lemma by_position_trans {B} (x y z : nat * B) :
  by_position x y = true -> by_position y z = true -> by_position x z = true.
Proof. unfold by_position. rewrite !Nat.leb_le. lia. Qed.

Lemma member_le_total (l : list Z) c :
  Forall is_pow2 l -> In c l -> c <= total l.
Proof.
  induction 1 as [|x l Hx Hl IH]; simpl; [contradiction|].
  assert (0 <= total l).
  { clear -Hl. induction Hl as [|y l Hy _ IHl]; simpl; [lia|].
    apply pow2_pos in Hy. lia. }
  apply pow2_pos in Hx.
  intros [->|Hin]; [lia|]. apply IH in Hin. lia.
Qed.

(** After sorting back by position, the block at index [i] is the one that was
    assigned to request [i]. *)
Lemma reordered_nth (tagged : list (nat * AddressBlock)) (n i : nat) b :
  Permutation (map fst tagged) (seq 0 n) ->
  nth_error (map snd (sorted by_position tagged)) i = Some b ->
  In (i, b) tagged.
Proof.
  intros HP Hn.
  set (srt := sorted by_position tagged) in *.
  assert (map fst srt = seq 0 n) as Hfst.
  { apply ascending_unique.
    - apply StronglySorted_map with (R := fun a b => by_position a b = true).
      + intros x y H. now apply Nat.leb_le.
      + apply sorted_ordered; [apply by_position_total | apply by_position_trans].
    - apply seq_ascending.
    - rewrite <- HP. apply Permutation_map. apply sorted_perm. }
  destruct (nth_error srt i) as [[p b']|] eqn:E.
  - pose proof (map_nth_error snd _ _ E) as Hs. rewrite Hn in Hs. inversion Hs; subst.
    pose proof (map_nth_error fst _ _ E) as Hf. rewrite Hfst in Hf. simpl in Hf.
    assert (i < n)%nat as Hi.
    { assert (nth_error (seq 0 n) i <> None) as Hsome by congruence.
      apply nth_error_Some in Hsome. now rewrite length_seq in Hsome. }
    rewrite nth_error_nth' with (d := O) in Hf by now rewrite length_seq.
    rewrite seq_nth in Hf by assumption. inversion Hf; subst.
    apply nth_error_In in E.
    eapply Permutation_in; [apply sorted_perm | exact E].
  - apply nth_error_None in E.
    assert (nth_error (map snd srt) i = None) as Hnone
      by (apply nth_error_None; now rewrite length_map).
    congruence.
Qed.

(** C5: for a parent prefix [P] and power-of-two sizes [S] whose total fits in
    [P], [allocate P S] returns one block per request, the block at index [i]
    having exactly the capacity of request [i] (so in request order), every
    block inside [P], and the blocks pairwise disjoint. *)
Theorem allocate_blocks (P : AddressBlock) (S : list Z) :
  wf_block P -> Forall is_pow2 S -> total S <= capacity P ->
  exists bs,
    allocate P S = Ok bs /\
    length bs = length S /\
    (forall i b, nth_error bs i = Some b ->
       inside P b /\ nth_error S i = Some (capacity b)) /\
    (forall i j bi bj, i <> j ->
       nth_error bs i = Some bi -> nth_error bs j = Some bj -> disjoint bi bj).
Proof.
  intros (Hlen & Hbase & Hal) Hpow Hfit.
  set (reqs := sorted by_size_desc (indexed S)).
  assert (Permutation reqs (indexed S)) as Hperm by apply sorted_perm.
  assert (Forall (fun r => is_pow2 (snd r)) reqs) as Hpr.
  { rewrite Forall_forall in *. intros r Hr. apply Hpow.
    rewrite <- (map_snd_indexed S). apply in_map.
    eapply Permutation_in; eauto. }
  assert (total (map snd reqs) = total S) as Htot.
  { transitivity (total (map snd (indexed S))).
    - apply total_perm. now apply Permutation_map.
    - now rewrite map_snd_indexed. }
  assert (assign (block_end P) (base P) reqs = Ok (place (base P) reqs)) as Hassign.
  { apply assign_place; auto.
    - apply sorted_ordered; [apply by_size_desc_total | apply by_size_desc_trans].
    - intros r Hr. apply Z.divide_trans with (capacity P); [|exact Hal].
      rewrite Forall_forall in Hpr. apply pow2_divide; auto.
      + exists (address_bits - prefixlen P). split; [lia|reflexivity].
      + assert (In (snd r) S) as HinS.
        { rewrite <- (map_snd_indexed S). apply in_map.
          eapply Permutation_in; eauto. }
        pose proof (member_le_total S (snd r) Hpow HinS). lia.
    - unfold block_end. lia. }
  assert (Permutation (map fst (place (base P) reqs)) (seq 0 (length S))) as Hpos.
  { rewrite map_fst_place, <- map_fst_indexed. now apply Permutation_map. }
  exists (map snd (sorted by_position (place (base P) reqs))).
  split; [|split; [|split]].
  - unfold allocate. fold reqs. rewrite Hassign.
    destruct (capacity P <? total S) eqn:E; [apply Z.ltb_lt in E; lia|reflexivity].
  - rewrite length_map, sorted_length.
    rewrite <- (length_map fst), map_fst_place, length_map.
    apply Permutation_length in Hperm. rewrite Hperm.
    rewrite <- (length_map fst), map_fst_indexed. apply length_seq.
  - intros i b Hn. eapply reordered_nth in Hn; [|exact Hpos].
    apply place_In in Hn as (Hin & Hlo & Hhi); [|exact Hpr].
    split; [split; [exact Hlo | unfold block_end in *; lia]|].
    eapply Permutation_in in Hin; [|exact Hperm].
    apply In_indexed_from in Hin as [_ Hin]. now rewrite Nat.sub_0_r in Hin.
  - intros i j bi bj Hne Hi Hj.
    eapply reordered_nth in Hi; [|exact Hpos].
    eapply reordered_nth in Hj; [|exact Hpos].
    eapply place_disjoint; eauto.
Qed.

(** ** The per-subnet arithmetic of [instance_role] *)

Lemma total_app l1 l2 : total (l1 ++ l2) = total l1 + total l2.
Proof. induction l1; simpl; lia. Qed.

Lemma total_repeat x n : total (repeat x n) = x * Z.of_nat n.
Proof. induction n; simpl repeat; simpl total; lia. Qed.

Lemma planned_shares_layout existing : forall per rem,
  0 <= rem <= len existing ->
  planned_shares per rem existing =
    repeat (per + 1) (Z.to_nat rem)
      ++ repeat per (length existing - Z.to_nat rem).
Proof.
  unfold planned_shares, len.
  induction existing as [|e rest IH]; intros per rem Hrem.
  - simpl in *. replace rem with 0 by lia. reflexivity.
  - cbn [subnet_counts]. unfold subnet_count.
    destruct (rem =? 0) eqn:E; cbn [negb length combine map fst snd].
    + apply Z.eqb_eq in E. subst rem.
      rewrite IH by lia. cbn [Z.to_nat app repeat].
      rewrite !Nat.sub_0_r. cbn [repeat]. f_equal. lia.
    + apply Z.eqb_neq in E.
      rewrite IH by (cbn [length] in Hrem; lia).
      replace (Z.to_nat rem) with (S (Z.to_nat (rem - 1))) by lia.
      cbn [repeat app Nat.sub]. f_equal. lia.
Qed.

Lemma by_key_total {B} (x y : Z * B) : by_key x y = true \/ by_key y x = true.
Proof. unfold by_key. rewrite !Z.leb_le. lia. Qed.

Lemma by_key_trans {B} (x y z : Z * B) :
  by_key x y = true -> by_key y z = true -> by_key x z = true.
Proof. unfold by_key. rewrite !Z.leb_le. lia. Qed.

(** The arithmetic of the shares: with D > E and Z >= 1 subnets, base = (D - E) div Z and
    remainder = (D - E) mod Z; in walking order the first [remainder] subnets
    are planned base + 1 and the others base (counting back what the loop
    subtracts for the subnet's own instances), the planned shares sum to
    D - E, and exactly [remainder] of them (so at most that many) are one above
    the floor share.  The walking order is the subnets sorted by ascending
    instance count. *)
Theorem fair_shares (D E : Z) (existing : list Z) :
  E < D -> (1 <= length existing)%nat ->
  let needed_per_subnet := (D - E) / len existing in
  let needed_remainder := (D - E) mod len existing in
  let planned := planned_shares needed_per_subnet needed_remainder existing in
  planned = repeat (needed_per_subnet + 1) (Z.to_nat needed_remainder)
              ++ repeat needed_per_subnet
                   (length existing - Z.to_nat needed_remainder) /\
  total planned = D - E /\
  len (filter (Z.eqb (needed_per_subnet + 1)) planned) = needed_remainder /\
  forall (keyed : list (Z * string)),
    StronglySorted Z.le (map fst (sorted by_key keyed)) /\
    Permutation (sorted by_key keyed) keyed.
Proof.
  intros HDE Hlen per rem planned.
  assert (0 < len existing) as Hz by (unfold len; lia).
  assert (0 <= rem < len existing) as Hrem by (apply Z.mod_pos_bound; lia).
  assert (planned = repeat (per + 1) (Z.to_nat rem)
                      ++ repeat per (length existing - Z.to_nat rem)) as Hlay
    by (apply planned_shares_layout; lia).
  split; [exact Hlay|]. rewrite Hlay. split; [|split].
  - rewrite total_app, !total_repeat.
    rewrite Nat2Z.inj_sub by (unfold len in Hrem; lia).
    rewrite Z2Nat.id by lia. fold (len existing).
    pose proof (Z.div_mod (D - E) (len existing)) as Hdm.
    fold per rem in Hdm. nia.
  - rewrite filter_app.
    assert (forall n, filter (Z.eqb (per + 1)) (repeat (per + 1) n)
                      = repeat (per + 1) n) as F1.
    { induction n; simpl; [reflexivity|]. rewrite Z.eqb_refl. now f_equal. }
    assert (forall n, filter (Z.eqb (per + 1)) (repeat per n) = []) as F2.
    { induction n; simpl; [reflexivity|].
      destruct (per + 1 =? per) eqn:Hq; [apply Z.eqb_eq in Hq; lia|assumption]. }
    rewrite F1, F2, app_nil_r. unfold len. rewrite repeat_length. lia.
  - intros keyed. split.
    + apply StronglySorted_map with (R := fun a b => by_key a b = true).
      * intros x y H. now apply Z.leb_le.
      * apply sorted_ordered; [apply by_key_total | apply by_key_trans].
    + apply sorted_perm.
Qed.

(** ** The monad *)

Lemma bind_Ok_inv {A B} (m : M A) (f : A -> M B) s b s' :
  bind m f s = (Ok b, s') ->
  exists a s1, m s = (Ok a, s1) /\ f a s1 = (Ok b, s').
Proof.
  unfold bind. destruct (m s) as [[a|e] s1]; intros H; [eauto|discriminate].
Qed.

Lemma bind_Ok {A B} (m : M A) (f : A -> M B) s a s1 :
  m s = (Ok a, s1) -> bind m f s = f a s1.
Proof. unfold bind. now intros ->. Qed.

Lemma bind_Raise {A B} (m : M A) (f : A -> M B) s e s1 :
  m s = (Raise e, s1) -> bind m f s = (Raise e, s1).
Proof. unfold bind. now intros ->. Qed.

Lemma perform_run {A} W c (answer : list call -> A) s :
  perform W c answer s =
    (match fault W (history s) c with
     | Some e => Raise e
     | None => Ok (answer (history s))
     end, {| history := history s ++ [c]; heap := heap s |}).
Proof. unfold perform. destruct (fault W (history s) c); reflexivity. Qed.

Lemma emit_run W msg lvl s :
  emit W msg lvl s =
    (match fault W (history s) (Emit msg lvl) with
     | Some e => Raise e
     | None => Ok tt
     end, {| history := history s ++ [Emit msg lvl]; heap := heap s |}).
Proof. unfold emit. apply perform_run. Qed.

Lemma bind_run {A B} (m : M A) (f : A -> M B) s :
  bind m f s = match m s with
               | (Ok a, s') => f a s'
               | (Raise e, s') => (Raise e, s')
               end.
Proof. reflexivity. Qed.

Lemma bind_emit_run {B} W msg lvl (f : unit -> M B) s :
  bind (emit W msg lvl) f s =
    match fault W (history s) (Emit msg lvl) with
    | Some e => (Raise e, {| history := history s ++ [Emit msg lvl]; heap := heap s |})
    | None => f tt {| history := history s ++ [Emit msg lvl]; heap := heap s |}
    end.
Proof.
  rewrite bind_run, emit_run. destruct (fault W (history s) (Emit msg lvl)); reflexivity.
Qed.

Lemma for_fold_app {A S} (l1 l2 : list A) (body : S -> A -> M S) : forall acc s,
  for_fold (l1 ++ l2) acc body s =
  bind (for_fold l1 acc body) (fun acc' => for_fold l2 acc' body) s.
Proof.
  induction l1 as [|x l1 IH]; intros acc s; simpl; [reflexivity|].
  unfold bind. destruct (body acc x s) as [[acc'|e] s1]; [|reflexivity].
  rewrite IH. reflexivity.
Qed.

Section Emits.
Variable W : Cloud.
Variable P : call -> Prop.

Lemma emits_ret {A} (a : A) : emits P (ret a).
Proof. intros s. exists []. simpl. now rewrite app_nil_r. Qed.

Lemma emits_raise {A} e : emits P (@raise A e).
Proof. intros s. exists []. simpl. now rewrite app_nil_r. Qed.

Lemma emits_lift {A} (o : outcome A) : emits P (lift o).
Proof. intros s. exists []. simpl. now rewrite app_nil_r. Qed.

Lemma emits_query {A} (q : list call -> outcome A) : emits P (query q).
Proof. intros s. exists []. simpl. now rewrite app_nil_r. Qed.

Lemma emits_attr {A} (o : option A) name : emits P (attr o name).
Proof. destruct o; [apply emits_ret | apply emits_raise]. Qed.

Lemma emits_alloc l : emits P (alloc l).
Proof. intros s. exists []. simpl. now rewrite app_nil_r. Qed.

Lemma emits_deref a : emits P (deref a).
Proof. intros s. exists []. simpl. now rewrite app_nil_r. Qed.

Lemma emits_list_append a x : emits P (list_append a x).
Proof. intros s. exists []. simpl. now rewrite app_nil_r. Qed.

Lemma emits_perform {A} c (answer : list call -> A) :
  P c -> emits P (perform W c answer).
Proof.
  intros Hc s. exists [c]. unfold perform.
  destruct (fault W (history s) c); simpl; auto.
Qed.

Lemma emits_bind {A B} (m : M A) (f : A -> M B) :
  emits P m -> (forall a, emits P (f a)) -> emits P (bind m f).
Proof.
  intros Hm Hf s. unfold bind.
  destruct (Hm s) as (e1 & H1 & F1).
  destruct (m s) as [[a|e] s1]; simpl in *.
  - destruct (Hf a s1) as (e2 & H2 & F2).
    exists (e1 ++ e2). rewrite H2, H1, app_assoc. split; [reflexivity|].
    apply Forall_app; auto.
  - exists e1. auto.
Qed.

Lemma emits_try_except {A} (body : M A) catches handler :
  emits P body -> (forall e, emits P (handler e)) ->
  emits P (try_except body catches handler).
Proof.
  intros Hm Hh s. unfold try_except.
  destruct (Hm s) as (e1 & H1 & F1).
  destruct (body s) as [[a|e] s1]; simpl in *.
  - exists e1. auto.
  - destruct (catches e); [|exists e1; auto].
    destruct (Hh e s1) as (e2 & H2 & F2).
    exists (e1 ++ e2). rewrite H2, H1, app_assoc. split; [reflexivity|].
    apply Forall_app; auto.
Qed.

Lemma emits_for_each {A} (l : list A) (body : A -> M unit) :
  (forall x, emits P (body x)) -> emits P (for_each l body).
Proof.
  intros Hb. induction l as [|x l IH]; simpl.
  - apply emits_ret.
  - apply emits_bind; auto.
Qed.

Lemma emits_for_fold {A S} (l : list A) (body : S -> A -> M S) :
  (forall acc x, emits P (body acc x)) -> forall acc, emits P (for_fold l acc body).
Proof.
  intros Hb. induction l as [|x l IH]; intros acc; simpl.
  - apply emits_ret.
  - apply emits_bind; auto.
Qed.

Lemma emits_map_M {A B} (f : A -> M B) (l : list A) :
  (forall x, emits P (f x)) -> emits P (map_M f l).
Proof.
  intros Hf. induction l as [|x l IH]; simpl.
  - apply emits_ret.
  - apply emits_bind; auto. intros y.
    apply emits_bind; auto. intros ys. apply emits_ret.
Qed.
End Emits.

Lemma emits_weaken (P Q : call -> Prop) {A} (m : M A) :
  (forall c, P c -> Q c) -> emits P m -> emits Q m.
Proof.
  intros HPQ Hm s. destruct (Hm s) as (evs & H & F).
  exists evs. split; [exact H|]. eapply Forall_impl; eauto.
Qed.

(** One step of a syntax-directed proof of [emits]. *)
Ltac emits_step W :=
  match goal with
  | |- emits _ (bind _ _) => apply emits_bind; [|intros ?]
  | |- emits _ (ret _) => apply emits_ret
  | |- emits _ (raise _) => apply emits_raise
  | |- emits _ (lift _) => apply emits_lift
  | |- emits _ (query _) => apply emits_query
  | |- emits _ (attr _ _) => apply emits_attr
  | |- emits _ (alloc _) => apply emits_alloc
  | |- emits _ (deref _) => apply emits_deref
  | |- emits _ (list_append _ _) => apply emits_list_append
  | |- emits _ (perform _ _ _) =>
      apply (emits_perform W); unfold in_stage; cbn [stage_of]; auto
  | |- emits _ (emit _ _ _) =>
      apply (emits_perform W); unfold in_stage; cbn [stage_of]; auto
  | |- emits _ (update_tags _ _ _) =>
      apply (emits_perform W); unfold in_stage; cbn [stage_of]; auto
  | |- emits _ (for_each _ _) => apply emits_for_each; intros ?
  | |- emits _ (for_fold _ _ _) => apply emits_for_fold; intros ? ?
  | |- emits _ (map_M _ _) => apply emits_map_M; intros ?
  | |- emits _ (try_except _ _ _) => apply emits_try_except; [|intros ?]
  | |- emits _ (match ?x with _ => _ end) => destruct x
  end.

Ltac emits_auto W := repeat (emits_step W).

(** ** Which calls each pipeline statement makes *)

Section Stages.
Variable W : Cloud.
Variable vpc_name : string.

Lemma route_tables_stage cfg : emits (in_stage 1) (route_tables W cfg).
Proof. unfold route_tables. emits_auto W. Qed.

Lemma subnets_stage cfg : emits (in_stage 2) (subnets W cfg).
Proof. unfold subnets. emits_auto W. Qed.

Lemma associate_stage cfg :
  emits (in_stage 3) (associate_route_tables_with_subnets W cfg).
Proof. unfold associate_route_tables_with_subnets. emits_auto W. Qed.

Lemma endpoints_stage cfg : emits (in_stage 4) (endpoints W cfg).
Proof. unfold endpoints. emits_auto W. Qed.

Lemma key_pairs_stage a : emits (in_stage 5) (key_pairs W a).
Proof. unfold key_pairs, ensure_key_pair. emits_auto W. Qed.

Lemma security_groups_stage cfg : emits (in_stage 6) (security_groups W cfg).
Proof. unfold security_groups. emits_auto W. Qed.

Lemma instance_role_stage amis name data d :
  emits (in_stage 7) (instance_role W amis name data d).
Proof.
  unfold instance_role, launch_in_subnet, subnet_count. emits_auto W.
Qed.

Lemma tag_instances_stage name l : emits (in_stage 7) (tag_instances W name l).
Proof. unfold tag_instances, tag_volume. emits_auto W. Qed.

Lemma instance_roles_stage amis cfg : emits (in_stage 7) (instance_roles W amis cfg).
Proof.
  unfold instance_roles, role_step. emits_auto W;
    try apply instance_role_stage; try apply tag_instances_stage.
Qed.

Lemma security_group_rules_stage cfg :
  emits (in_stage 8) (security_group_rules W cfg).
Proof. unfold security_group_rules. emits_auto W. Qed.

Lemma wait_until_running_stage : emits (in_stage 9) (wait_until_running W).
Proof. unfold wait_until_running. emits_auto W. Qed.

Lemma lock_instances_stage : emits (in_stage 10) (lock_instances W).
Proof. unfold lock_instances. emits_auto W. Qed.
End Stages.

(** ** The order of the pipeline *)

Lemma stages_of_app a b : stages_of (a ++ b) = stages_of a ++ stages_of b.
Proof. unfold stages_of. apply flat_map_app. Qed.

Lemma stages_of_in_stage k evs :
  Forall (in_stage k) evs -> Forall (eq k) (stages_of evs).
Proof.
  induction 1 as [|c evs Hc _ IH]; simpl; [constructor|].
  destruct Hc as [Hc|Hc]; rewrite Hc; simpl; auto.
Qed.

Lemma stages_of_In c k evs :
  In c evs -> stage_of c = Some k -> In k (stages_of evs).
Proof.
  intros Hin Hk. unfold stages_of. apply in_flat_map.
  exists c. rewrite Hk. split; [exact Hin | now left].
Qed.

Lemma ascending_app (l1 l2 : list nat) :
  StronglySorted le l1 -> StronglySorted le l2 ->
  (forall x y, In x l1 -> In y l2 -> (x <= y)%nat) ->
  StronglySorted le (l1 ++ l2).
Proof.
  induction 1 as [|x l1 H1 IH Hx]; intros H2 Hle; simpl; [exact H2|].
  constructor.
  - apply IH; auto. intros; apply Hle; simpl; auto.
  - apply Forall_app. split; [exact Hx|].
    rewrite Forall_forall. intros y Hy. apply Hle; simpl; auto.
Qed.

Lemma ascending_after (l1 l2 : list nat) x :
  StronglySorted le (l1 ++ x :: l2) -> Forall (le x) l2.
Proof.
  induction l1 as [|y l1 IH]; simpl; intros H; inversion H; subst; auto.
Qed.

Lemma all_equal_ascending k (l : list nat) : Forall (eq k) l -> StronglySorted le l.
Proof.
  induction 1 as [|x l Hx Hl IH]; constructor; auto.
  subst. eapply Forall_impl; [|exact Hl]. intros; lia.
Qed.

Lemma sequence_ordered (stmts : list (M unit)) : forall k,
  (forall i stmt, nth_error stmts i = Some stmt -> emits (in_stage (k + i)) stmt) ->
  ordered_from k (sequence stmts).
Proof.
  unfold sequence.
  induction stmts as [|stmt stmts IH]; intros k Hst s.
  - exists []. simpl. rewrite app_nil_r. repeat constructor.
  - simpl. unfold bind.
    pose proof (Hst 0%nat stmt eq_refl) as H0. rewrite Nat.add_0_r in H0.
    destruct (H0 s) as (e1 & H1 & F1). apply stages_of_in_stage in F1.
    destruct (stmt s) as [[[]|e] s1]; simpl in *.
    + destruct (IH (S k)) with (s := s1) as (e2 & H2 & S2 & F2).
      { intros i st Hi. replace (S k + i)%nat with (k + S i)%nat by lia.
        now apply Hst. }
      exists (e1 ++ e2). rewrite H2, H1, app_assoc, stages_of_app.
      split; [reflexivity|]. split.
      * apply ascending_app; auto; [now apply all_equal_ascending with k|].
        rewrite Forall_forall in F1, F2. intros x y Hx Hy.
        apply F1 in Hx. apply F2 in Hy. lia.
      * apply Forall_app. split.
        -- eapply Forall_impl; [|exact F1]. intros; lia.
        -- eapply Forall_impl; [|exact F2]. intros; lia.
    + exists e1. split; [exact H1|]. split.
      * now apply all_equal_ascending with k.
      * eapply Forall_impl; [|exact F1]. intros; lia.
Qed.

Lemma pipeline_stages W vpc_name amis config i stmt :
  nth_error (pipeline W vpc_name amis config) i = Some stmt ->
  emits (in_stage (0 + i)) stmt.
Proof.
  unfold pipeline.
  destruct i as [|[|[|[|[|[|[|[|[|[|[|[|i]]]]]]]]]]]];
    cbn [nth_error Nat.add]; intros H; try (injection H as <-).
  - emits_auto W.
  - apply route_tables_stage.
  - apply subnets_stage.
  - apply associate_stage.
  - apply endpoints_stage.
  - emits_auto W; apply key_pairs_stage.
  - apply security_groups_stage.
  - apply instance_roles_stage.
  - apply security_group_rules_stage.
  - apply wait_until_running_stage.
  - apply lock_instances_stage.
  - emits_auto W.
  - destruct i; discriminate.
Qed.

(** C8: whatever the configuration and the collaborators do, the calls of a
    build come in the order of the pipeline: VPC handle, route tables, subnets,
    route-table associations, endpoints, key pairs, security groups, instance
    roles, security-group rules, wait-for-running, instance locking.  So no
    security group is created after a rule has been applied, and no subnet is
    created after an association has been made. *)
Theorem pipeline_order (W : Cloud) (vpc_name : string) (config : Config) (s : state) :
  exists evs,
    history (snd (_apply_all W vpc_name config s)) = history s ++ evs /\
    StronglySorted le (stages_of evs) /\
    (forall before after sg perms n d,
       evs = before ++ AuthorizeIngress sg perms :: after ->
       ~ In (CreateSecurityGroup n d) after) /\
    (forall before after rt sn cidr az,
       evs = before ++ AssociateRouteTableWithSubnet rt sn :: after ->
       ~ In (CreateSubnet cidr az) after).
Proof.
  assert (exists evs,
            history (snd (_apply_all W vpc_name config s)) = history s ++ evs /\
            StronglySorted le (stages_of evs)) as (evs & Hh & Hs).
  { unfold _apply_all, bind, lift.
    destruct (cfg_amis config) as [amis|].
    - destruct (sequence_ordered (pipeline W vpc_name amis config) 0
                  (pipeline_stages W vpc_name amis config) s) as (evs & H & S1 & _).
      exists evs. auto.
    - exists []. simpl. rewrite app_nil_r. split; [reflexivity|constructor]. }
  exists evs. split; [exact Hh|]. split; [exact Hs|]. split.
  - intros before after sg perms n d -> Hin.
    rewrite stages_of_app in Hs. cbn [stages_of flat_map stage_of app] in Hs.
    apply ascending_after in Hs. rewrite Forall_forall in Hs.
    specialize (Hs 6%nat (stages_of_In _ _ _ Hin eq_refl)). lia.
  - intros before after rt sn cidr az -> Hin.
    rewrite stages_of_app in Hs. cbn [stages_of flat_map stage_of app] in Hs.
    apply ascending_after in Hs. rewrite Forall_forall in Hs.
    specialize (Hs 2%nat (stages_of_In _ _ _ Hin eq_refl)). lia.
Qed.

(** ** The reconciler, [instance_role] *)

Lemma map_M_length {A B} (f : A -> M B) (l : list A) : forall s ys s',
  map_M f l s = (Ok ys, s') -> length ys = length l.
Proof.
  induction l as [|x l IH]; simpl; intros s ys s' H.
  - inversion H. reflexivity.
  - apply bind_Ok_inv in H as (y & s1 & _ & H).
    apply bind_Ok_inv in H as (ys' & s2 & Hys & H).
    inversion H; subst. simpl. f_equal. eauto.
Qed.

(** The early exit of the "enough instances" branch is never taken: when
    [instance_role] returns None the role had no subnets, and when it returns
    a list the role had fewer instances than desired. *)
Lemma instance_role_returns W amis role_name role_data desired_count s r s' :
  instance_role W amis role_name role_data desired_count s = (Ok r, s') ->
  (r = None /\ role_subnets role_data = []) \/
  (exists l existing,
     r = Some l /\ role_subnets role_data <> [] /\
     get_role W (history s ++ [Emit ("creating role: " ++ role_name)%string info])
       role_name = Ok existing /\
     len existing < desired_count).
Proof.
  unfold instance_role. intros H.
  apply bind_Ok_inv in H as ([] & s1 & H1 & H).
  assert (history s1 =
          history s ++ [Emit ("creating role: " ++ role_name)%string info]) as Hs1.
  { unfold emit, perform in H1.
    destruct (fault W (history s) _); inversion H1; reflexivity. }
  apply bind_Ok_inv in H as (ami_ref & s2 & H2 & H).
  apply bind_Ok_inv in H as (by_region & s3 & H3 & H).
  apply bind_Ok_inv in H as (ami & s4 & H4 & H).
  apply bind_Ok_inv in H as (key_pair & s5 & H5 & H).
  apply bind_Ok_inv in H as (sgs & s6 & H6 & H).
  apply bind_Ok_inv in H as (sns & s7 & H7 & H).
  assert (forall A (f : string -> list call -> outcome A) l t ys t',
            map_M (fun n => query (fun h => f n h)) l t = (Ok ys, t') -> t' = t)
    as Hq.
  { intros A f l. induction l as [|x l IH]; simpl; intros t ys t' Hm.
    - now inversion Hm.
    - apply bind_Ok_inv in Hm as (y & t1 & Hy & Hm).
      apply bind_Ok_inv in Hm as (ys' & t2 & Hys & Hm).
      unfold query in Hy. inversion Hy; subst. inversion Hm; subst. eauto. }
  unfold lift, query in H2, H3, H4, H5.
  inversion H2; inversion H3; inversion H4; inversion H5; subst; clear H2 H3 H4 H5.
  apply (Hq _ (fun n h => get_security_group W h n)) in H6 as Hs6.
  apply (Hq _ (fun n h => get_subnet W h n)) in H7 as Hs7. subst.
  destruct (len sns =? 0) eqn:Hlen.
  - apply bind_Ok_inv in H as (? & ? & _ & H). inversion H; subst.
    left. split; [reflexivity|].
    apply map_M_length in H7. apply Z.eqb_eq in Hlen. unfold len in Hlen.
    destruct (role_subnets role_data); [reflexivity|simpl in H7; lia].
  - apply bind_Ok_inv in H as (keyed & s8 & Hkeyed & H).
    assert (s8 = s5) as ->.
    { clear -Hkeyed. revert keyed s8 Hkeyed. generalize s5.
      induction sns as [|x l IH]; simpl; intros t keyed t' Hm.
      - now inversion Hm.
      - apply bind_Ok_inv in Hm as (y & t1 & Hy & Hm).
        apply bind_Ok_inv in Hm as (ys' & t2 & Hys & Hm).
        apply bind_Ok_inv in Hy as (sn_id & t3 & Ha & Hy).
        apply bind_Ok_inv in Hy as (k & t4 & Hk & Hy).
        destruct x; simpl in Ha; inversion Ha; subst.
        unfold query in Hk. inversion Hk; subst.
        inversion Hy; subst. inversion Hm; subst. eauto. }
    apply bind_Ok_inv in H as (existing & s9 & Hrole & H).
    unfold query in Hrole. inversion Hrole as [[Hex Hst]]. subst s9.
    destruct (desired_count <=? len existing) eqn:Hcmp.
    + apply bind_Ok_inv in H as (v & ? & Hv & _). discriminate Hv.
    + apply bind_Ok_inv in H as ([rem insts] & s10 & _ & H).
      apply bind_Ok_inv in H as (enriched & s11 & _ & H).
      inversion H; subst. right. exists enriched, existing.
      rewrite <- Hs1. split; [reflexivity|]. split; [|split; [exact Hex|]].
      * apply map_M_length in H7. apply Z.eqb_neq in Hlen. unfold len in Hlen.
        intros Hnil. rewrite Hnil in H7. destruct sns; [simpl in Hlen; lia|].
        discriminate H7.
      * apply Z.leb_gt in Hcmp. exact Hcmp.
Qed.

Lemma instance_role_no_subnets W amis role_name role_data desired_count s r s' :
  role_subnets role_data = [] ->
  instance_role W amis role_name role_data desired_count s = (Ok r, s') ->
  r = None.
Proof.
  intros Hs H. apply instance_role_returns in H as [[Hr _]|Hlaunch]; [exact Hr|].
  destruct Hlaunch as (l & existing & _ & Hne & _). contradiction.
Qed.

(** C2 (the code raises instead): with two instances desired and three
    existing, [instance_role] stops with a TypeError at the debug line of the
    early exit, right after the first log line. *)
Theorem scale_down_raises_TypeError :
  instance_role uneven_cloud demo_amis "db" (demo_role 2 "base" ["subnet-a"]) 2
    keyed_state =
  (Raise (mk_exn TypeError "unsupported operand type(s) for +: 'int' and 'str'"),
   {| history := [CreateKeyPair "default"; Emit "creating role: db" info];
      heap := [["default"]] |}).
Proof. vm_compute. reflexivity. Qed.

(** What one pass of the loop does when it completes: the count is
    [subnet_count] of the subnet's answer, a zero count makes no call, and any
    other count, negative ones included, is passed to [create_instances]. *)
Lemma launch_in_subnet_returns W role_name role_data ami key_pair sgs per
  rem insts subnet s rem' insts' s' :
  launch_in_subnet W role_name role_data ami key_pair sgs per (rem, insts) subnet s
    = (Ok (rem', insts'), s') ->
  exists in_subnet,
    get_role_in_subnet W (history s ++ [Uuid4]) role_name subnet = Ok in_subnet /\
    rem' = snd (subnet_count per rem (len in_subnet)) /\
    let count := fst (subnet_count per rem (len in_subnet)) in
    (count = 0 /\ insts' = insts /\ history s' = history s ++ [Uuid4]) \/
    (count <> 0 /\
     exists msg key_name sg_ids,
       history s' = history s ++
         [Uuid4; Emit msg info;
          CreateInstances subnet ami (role_instance_type role_data) count count
            key_name sg_ids (new_uuid W (history s))]).
Proof.
  unfold launch_in_subnet. intros H.
  apply bind_Ok_inv in H as (token & s1 & H1 & H).
  unfold perform in H1.
  destruct (fault W (history s) Uuid4); inversion H1; subst; clear H1.
  apply bind_Ok_inv in H as (in_subnet & s2 & H2 & H).
  unfold query in H2; simpl in H2. inversion H2 as [[Hq Hs2]]. subst s2.
  exists in_subnet. split; [exact Hq|].
  destruct (subnet_count per rem (len in_subnet)) as [count r] eqn:Hc. simpl.
  destruct (count =? 0) eqn:Hz.
  - inversion H; subst. apply Z.eqb_eq in Hz.
    split; [reflexivity|]. left. auto.
  - apply Z.eqb_neq in Hz.
    apply bind_Ok_inv in H as (name & s3 & H3 & H).
    unfold query in H3; inversion H3; subst; clear H3.
    apply bind_Ok_inv in H as ([] & s4 & H4 & H).
    unfold emit, perform in H4; simpl in H4.
    match type of H4 with context [fault ?w ?h ?c] =>
      destruct (fault w h c); inversion H4; subst; clear H4 end.
    apply bind_Ok_inv in H as (key_name & s5 & H5 & H).
    destruct key_pair; simpl in H5; inversion H5; subst; clear H5.
    apply bind_Ok_inv in H as (sg_ids & s6 & H6 & H).
    unfold lift in H6; inversion H6; subst; clear H6.
    apply bind_Ok_inv in H as (instances & s7 & H7 & H).
    unfold perform in H7; simpl in H7.
    match type of H7 with context [fault ?w ?h ?c] =>
      destruct (fault w h c); inversion H7; subst; clear H7 end.
    inversion H; subst. split; [reflexivity|]. right. split; [exact Hz|].
    simpl. eexists _, _, _. rewrite <- !app_assoc. simpl. reflexivity.
Qed.

(** C3 (the negative case is not skipped): five instances desired, three
    existing, all in subnet a, and an empty subnet b.  The share per subnet is
    one; subnet a's count is 1 - 3 = -2, which is not zero, so
    [create_instances] is called with MinCount = MaxCount = -2. *)
Theorem negative_count_is_launched :
  history (snd (instance_role uneven_cloud demo_amis "web"
                  (demo_role 5 "base" ["subnet-a"; "subnet-b"]) 5 keyed_state)) =
  [CreateKeyPair "default"; Emit "creating role: web" info; Uuid4;
   Emit "1 instances of role web launching into demo-subnet-b" info;
   CreateInstances "subnet-b" "ami-123" (Some "t2.micro") 1 1 "default"
     ["sg-web"] "token-2";
   Uuid4;
   Emit "-2 instances of role web launching into demo-subnet-a" info;
   CreateInstances "subnet-a" "ami-123" (Some "t2.micro") (-2) (-2) "default"
     ["sg-web"] "token-5"].
Proof. vm_compute. reflexivity. Qed.

(** C4 (the build does not continue): a role without subnets makes
    [instance_role] return None, which [tag_instances] then iterates over; the
    TypeError ends the build before any instance is tagged and before the
    security group rules, although the other role's instance was launched. *)
Theorem no_subnets_role_aborts_build :
  apply_all empty_cloud "demo" no_subnets_config fresh =
  (Raise none_not_iterable,
   {| history :=
        [NewEnrichedVPC "demo"; Emit "creating key pair default" info;
         CreateKeyPair "default"; Emit "creating role: web" info;
         Emit "no subnets found for role: web" warning;
         Emit "creating role: db" info; Uuid4;
         Emit "1 instances of role db launching into demo-subnet-b" info;
         CreateInstances "subnet-b" "ami-123" (Some "t2.micro") 1 1 "default"
           ["sg-web"] "token-6";
         Emit "Botoform failed to build environment!" error;
         Emit "Failure reason: 'NoneType' object is not iterable" error;
         Emit "Traceback (most recent call last): 'NoneType' object is not iterable"
              debug;
         Emit "Tearing down failed environment!" error];
      heap := [["default"]] |}).
Proof. vm_compute. reflexivity. Qed.

(** ** A role whose image cannot be resolved *)

(** C6, as stated, fails: role web names an image known only in us-west-2;
    the build of the two-role configuration ends with the KeyError. *)
Lemma unresolved_role_is_not_skipped :
  ~ unresolved_role_is_skipped empty_cloud "demo" unresolved_config demo_amis fresh.
Proof.
  intros H.
  destruct (H "web" (demo_role 1 "west-only" ["subnet-a"])) as [[s' Hok] _].
  - simpl. now left.
  - exists "west-only". split; [reflexivity|].
    intros by_region Hr. vm_compute in Hr. inversion Hr; subst. reflexivity.
  - vm_compute in Hok. discriminate Hok.
Qed.

Lemma sequence_raise (stmts : list (M unit)) : forall k stmt s s1 e s2,
  nth_error stmts k = Some stmt ->
  sequence (firstn k stmts) s = (Ok tt, s1) ->
  stmt s1 = (Raise e, s2) ->
  sequence stmts s = (Raise e, s2).
Proof.
  unfold sequence.
  induction stmts as [|st stmts IH]; intros k stmt s s1 e s2 Hn Hpre Hst.
  - destruct k; discriminate.
  - destruct k as [|k]; simpl in *.
    + inversion Hn; subst. inversion Hpre; subst.
      apply bind_Raise. exact Hst.
    + apply bind_Ok_inv in Hpre as ([] & s0 & H0 & Hpre).
      rewrite (bind_Ok _ _ _ _ _ H0). eapply IH; eauto.
Qed.

Lemma sequence_app (l1 l2 : list (M unit)) : forall s s1,
  sequence l1 s = (Ok tt, s1) -> sequence (l1 ++ l2) s = sequence l2 s1.
Proof.
  unfold sequence.
  induction l1 as [|st l1 IH]; intros s s1 H; simpl in *.
  - now inversion H.
  - apply bind_Ok_inv in H as ([] & s0 & H0 & H).
    rewrite (bind_Ok _ _ _ _ _ H0). now apply IH.
Qed.

(** The handler of [apply_all]: once [_apply_all] has raised [e], deriving
    from Exception, the only calls still made are lines of the failure report,
    and [apply_all] ends with an exception: [e] itself when the four lines can
    be written, the logger's when one of them is refused. *)
Lemma apply_all_reports W vpc_name config s e s2 :
  _apply_all W vpc_name config s = (Raise e, s2) ->
  is_Exception e = true ->
  (exists e' n,
     apply_all W vpc_name config s =
       (Raise e', {| history := history s2 ++ firstn n (failure_report W e);
                     heap := heap s2 |})) /\
  (writes W (history s2) (failure_report W e) ->
   apply_all W vpc_name config s =
     (Raise e, {| history := history s2 ++ failure_report W e;
                  heap := heap s2 |})).
Proof.
  intros Hrun Hexc. unfold apply_all, try_except. rewrite Hrun, Hexc.
  unfold failure_report. cbn [writes].
  rewrite bind_emit_run.
  destruct (fault W (history s2) _) as [e1|] eqn:F1.
  { split; [exists e1, 1%nat; reflexivity|]. intros (Hw & _). discriminate Hw. }
  rewrite bind_emit_run. cbn [history heap].
  destruct (fault W (history s2 ++ [_]) _) as [e2|] eqn:F2.
  { split; [exists e2, 2%nat; cbn [firstn]; now rewrite <- app_assoc|].
    intros (_ & Hw & _). discriminate Hw. }
  rewrite bind_emit_run. cbn [history heap].
  destruct (fault W ((history s2 ++ [_]) ++ [_]) _) as [e3|] eqn:F3.
  { split; [exists e3, 3%nat; cbn [firstn]; now rewrite <- !app_assoc|].
    intros (_ & _ & Hw & _). discriminate Hw. }
  rewrite bind_emit_run. cbn [history heap].
  destruct (fault W (((history s2 ++ [_]) ++ [_]) ++ [_]) _) as [e4|] eqn:F4.
  { split; [exists e4, 4%nat; cbn [firstn]; now rewrite <- !app_assoc|].
    intros (_ & _ & _ & Hw & _). discriminate Hw. }
  unfold raise. rewrite <- !app_assoc. cbn [app].
  split; [exists e, 4%nat; reflexivity|]. intros _. reflexivity.
Qed.

(** C6, amended: in a build that has reached [instance_roles] and processed
    the roles before it, a role whose image has no entry for the region makes
    [instance_role] raise a KeyError right after the "creating role" line;
    nothing catches it per role, so [instance_roles] ends there with the same
    exception: no later role is processed and no instance is tagged.  The
    build aborts: [apply_all] makes no further call but lines of its failure
    report and ends with an exception, the same KeyError when the report can
    be written. *)
Theorem unresolved_ami_aborts (W : Cloud) (vpc_name : string) (config : Config)
  (amis : dict (dict string)) (before after : dict RoleCfg) (name : string)
  (role_data : RoleCfg) (s s0 s1 : state)
  (acc : dict (option (list Instance)) * list string) :
  cfg_amis config = Some amis ->
  cfg_instance_roles config = before ++ (name, role_data) :: after ->
  sequence (firstn 7 (pipeline W vpc_name amis config)) s = (Ok tt, s0) ->
  for_fold before ([], []) (role_step W amis) s0 = (Ok acc, s1) ->
  ami_unresolved W amis role_data ->
  fault W (history s1) (role_log name) = None ->
  let s2 := {| history := history s1 ++ [role_log name]; heap := heap s1 |} in
  exists e,
    exn_cls e = KeyError /\
    instance_role W amis name role_data
      (match role_count role_data with Some c => c | None => 0 end) s1
      = (Raise e, s2) /\
    instance_roles W amis (cfg_instance_roles config) s0 = (Raise e, s2) /\
    (exists e' n,
       apply_all W vpc_name config s =
         (Raise e', {| history := history s2 ++ firstn n (failure_report W e);
                       heap := heap s2 |})) /\
    (writes W (history s2) (failure_report W e) ->
     apply_all W vpc_name config s =
       (Raise e, {| history := history s2 ++ failure_report W e;
                    heap := heap s2 |})).
Proof.
  intros Hamis Hroles Hpre Hbefore (ami_ref & Href & Hno) Hlog s2.
  unfold role_log in *.
  assert (exists e, exn_cls e = KeyError /\
            instance_role W amis name role_data
              (match role_count role_data with Some c => c | None => 0 end) s1
              = (Raise e, s2)) as (e & He & Hrole).
  { unfold instance_role, bind at 1, emit, perform. rewrite Hlog. fold s2.
    unfold bind at 1, lift at 1. rewrite Href.
    unfold bind at 1, lift at 1, dict_getitem at 1.
    destruct (dict_get amis ami_ref) as [by_region|] eqn:Hd.
    - unfold bind at 1, lift at 1, dict_getitem at 1.
      rewrite (Hno by_region eq_refl). eexists. split; [|reflexivity]. reflexivity.
    - eexists. split; [|reflexivity]. reflexivity. }
  assert (instance_roles W amis (cfg_instance_roles config) s0 = (Raise e, s2))
    as Hstage.
  { rewrite Hroles. unfold instance_roles.
    apply bind_Raise. rewrite for_fold_app. rewrite (bind_Ok _ _ _ _ _ Hbefore).
    cbn [for_fold]. apply bind_Raise.
    destruct acc as [roles eips]. unfold role_step.
    apply bind_Raise. exact Hrole. }
  exists e. split; [exact He|]. split; [exact Hrole|]. split; [exact Hstage|].
  apply apply_all_reports.
  - unfold _apply_all. rewrite Hamis. unfold bind at 1, lift.
    apply sequence_raise with (k := 7%nat) (s1 := s0)
      (stmt := instance_roles W amis (cfg_instance_roles config));
      [reflexivity|exact Hpre|exact Hstage].
  - unfold is_Exception. rewrite He. reflexivity.
Qed.

(** At the two-role configuration: role web comes first and is unresolved;
    the build ends with its KeyError after the four report lines, and role db
    is never reached. *)
Lemma unresolved_ami_aborts_witness :
  let s0 := snd (sequence (firstn 7 (pipeline empty_cloud "demo" demo_amis
                                       unresolved_config)) fresh) in
  let s2 := {| history := history s0 ++ [role_log "web"]; heap := heap s0 |} in
  exists e,
    exn_cls e = KeyError /\
    instance_role empty_cloud demo_amis "web" (demo_role 1 "west-only" ["subnet-a"])
      1 s0 = (Raise e, s2) /\
    instance_roles empty_cloud demo_amis (cfg_instance_roles unresolved_config) s0
      = (Raise e, s2) /\
    (exists e' n,
       apply_all empty_cloud "demo" unresolved_config fresh =
         (Raise e', {| history := history s2 ++ firstn n (failure_report empty_cloud e);
                       heap := heap s2 |})) /\
    (writes empty_cloud (history s2) (failure_report empty_cloud e) ->
     apply_all empty_cloud "demo" unresolved_config fresh =
       (Raise e, {| history := history s2 ++ failure_report empty_cloud e;
                    heap := heap s2 |})).
Proof.
  apply (unresolved_ami_aborts empty_cloud "demo" unresolved_config demo_amis []
           [("db", demo_role 1 "base" ["subnet-b"])] "web"
           (demo_role 1 "west-only" ["subnet-a"]) fresh
           (snd (sequence (firstn 7 (pipeline empty_cloud "demo" demo_amis
                                       unresolved_config)) fresh))
           (snd (sequence (firstn 7 (pipeline empty_cloud "demo" demo_amis
                                       unresolved_config)) fresh))
           ([], [])).
  - reflexivity.
  - reflexivity.
  - vm_compute. reflexivity.
  - reflexivity.
  - exists "west-only". split; [reflexivity|].
    intros by_region Hr. vm_compute in Hr. inversion Hr; subst. reflexivity.
  - reflexivity.
Defined.

Example unresolved_build :
  apply_all empty_cloud "demo" unresolved_config fresh =
    (Raise (mk_exn KeyError "'us-east-1'"),
     {| history :=
          [NewEnrichedVPC "demo"; Emit "creating key pair default" info;
           CreateKeyPair "default"; Emit "creating role: web" info;
           Emit "Botoform failed to build environment!" error;
           Emit "Failure reason: 'us-east-1'" error;
           Emit "Traceback (most recent call last): 'us-east-1'" debug;
           Emit "Tearing down failed environment!" error];
        heap := [["default"]] |}).
Proof. vm_compute. reflexivity. Qed.

(** ** Failures of the build *)




(** ** Key pairs *)

Lemma heap_append_same h : forall a x,
  (a < length h)%nat -> nth a (heap_append h a x) [] = nth a h [] ++ [x].
Proof.
  induction h as [|l h IH]; intros a x Ha; simpl in *; [lia|].
  destruct a as [|a]; simpl; [reflexivity|]. apply IH. lia.
Qed.

Lemma heap_append_other h : forall a b x,
  b <> a -> nth b (heap_append h a x) [] = nth b h [].
Proof.
  induction h as [|l h IH]; intros a b x Hne; simpl; [reflexivity|].
  destruct a as [|a], b as [|b]; simpl; try reflexivity; try congruence.
  apply IH. congruence.
Qed.

Lemma perform_Ok_inv {A} W c (answer : list call -> A) s a s' :
  perform W c answer s = (Ok a, s') ->
  fault W (history s) c = None /\ a = answer (history s) /\
  s' = {| history := history s ++ [c]; heap := heap s |}.
Proof.
  unfold perform. destruct (fault W (history s) c); intros H; inversion H; auto.
Qed.

Lemma history_extends {A} (P : call -> Prop) (m : M A) s :
  emits P m -> exists evs, history (snd (m s)) = history s ++ evs.
Proof. intros H. destruct (H s) as (evs & Hh & _). eauto. Qed.


Lemma ensure_key_pair_heap W names : forall s,
  heap (snd (for_each names (ensure_key_pair W) s)) = heap s.
Proof.
  induction names as [|n names IH]; intros s; simpl; [reflexivity|].
  unfold bind at 1.
  assert (heap (snd (ensure_key_pair W n s)) = heap s) as Hb.
  { unfold ensure_key_pair, bind, query, emit, perform, ret.
    destruct (get_key_pair W (history s) n) as [[kp|]|e]; simpl; try reflexivity.
    destruct (fault W (history s) _); simpl; [reflexivity|].
    destruct (fault W _ (CreateKeyPair n)); reflexivity. }
  destruct (ensure_key_pair W n s) as [[[]|e] s1]; simpl in *; [|exact Hb].
  rewrite IH. exact Hb.
Qed.

Lemma ensure_key_pair_emits W n : emits (in_stage 5) (ensure_key_pair W n).
Proof. unfold ensure_key_pair. emits_auto W. Qed.

Section KeyPairContract.
Variable W : Cloud.
Hypothesis created_is_present : forall h n,
  fault W h (CreateKeyPair n) = None ->
  key_pair_present W (h ++ [CreateKeyPair n]) n.
Hypothesis present_stays : forall h evs n,
  key_pair_present W h n -> key_pair_present W (h ++ evs) n.

Lemma ensure_key_pairs_present names : forall s s',
  for_each names (ensure_key_pair W) s = (Ok tt, s') ->
  forall n, In n names -> key_pair_present W (history s') n.
Proof.
  induction names as [|x names IH]; intros s s' H n Hin; simpl in *; [contradiction|].
  apply bind_Ok_inv in H as ([] & s1 & Hx & Hrest).
  destruct Hin as [->|Hin]; [|eapply IH; eauto].
  assert (key_pair_present W (history s1) n) as Hp.
  { unfold ensure_key_pair in Hx.
    apply bind_Ok_inv in Hx as (found & s0 & Hq & Hx).
    unfold query in Hq. inversion Hq as [[Hf Hs0]]. subst s0.
    destruct found as [kp|].
    - inversion Hx; subst. now exists kp.
    - apply bind_Ok_inv in Hx as ([] & s2 & Hlog & Hx).
      apply perform_Ok_inv in Hlog as (_ & _ & ->).
      apply perform_Ok_inv in Hx as (Hnf & _ & ->). simpl in *.
      now apply created_is_present. }
  destruct (history_extends (in_stage 5) (for_each names (ensure_key_pair W)) s1)
    as (evs & Hevs).
  { apply emits_for_each. intros; apply ensure_key_pair_emits. }
  rewrite Hrest in Hevs. simpl in Hevs. rewrite Hevs. now apply present_stays.
Qed.
End KeyPairContract.

(** C9: [key_pairs] appends 'default' to the list object it is given, whatever
    the list held and whether or not the stage completes, and touches no other
    list; when the stage completes, every name of the resulting list, 'default'
    included, has a key pair.  The collaborator is assumed to keep its
    promises: a key pair that was created is found, and none disappears. *)
Theorem key_pairs_appends_default (W : Cloud) (key_pair_cfg : addr) (s : state) :
  (key_pair_cfg < length (heap s))%nat ->
  (forall h n, fault W h (CreateKeyPair n) = None ->
               key_pair_present W (h ++ [CreateKeyPair n]) n) ->
  (forall h evs n, key_pair_present W h n -> key_pair_present W (h ++ evs) n) ->
  let after := snd (key_pairs W key_pair_cfg s) in
  nth key_pair_cfg (heap after) [] = nth key_pair_cfg (heap s) [] ++ ["default"] /\
  (forall other, other <> key_pair_cfg ->
     nth other (heap after) [] = nth other (heap s) []) /\
  (fst (key_pairs W key_pair_cfg s) = Ok tt ->
   forall n, In n (nth key_pair_cfg (heap s) [] ++ ["default"]) ->
     key_pair_present W (history after) n).
Proof.
  intros Ha Hcreate Hstay after.
  set (s1 := {| history := history s;
                heap := heap_append (heap s) key_pair_cfg "default" |}).
  assert (key_pairs W key_pair_cfg s =
          for_each (nth key_pair_cfg (heap s) [] ++ ["default"])
                   (ensure_key_pair W) s1) as Hrun.
  { unfold key_pairs, bind, list_append, deref. fold s1. simpl.
    rewrite heap_append_same by assumption. reflexivity. }
  unfold after. rewrite Hrun.
  rewrite ensure_key_pair_heap. simpl.
  split; [now apply heap_append_same|].
  split; [intros other Hne; now apply heap_append_other|].
  intros Hok n Hin.
  destruct (for_each _ (ensure_key_pair W) s1) as [[[]|e] s'] eqn:Hfe;
    simpl in Hok; [|discriminate].
  simpl. eapply ensure_key_pairs_present; eauto.
Qed.

(** On an empty configuration list in the demo cloud: the list becomes
    ['default'] and the key pair is there afterwards. *)
Lemma key_pairs_appends_default_witness :
  nth 0%nat (heap (snd (key_pairs empty_cloud 0%nat {| history := []; heap := [[]] |}))) []
    = ["default"] /\
  key_pair_present empty_cloud
    (history (snd (key_pairs empty_cloud 0%nat {| history := []; heap := [[]] |})))
    "default".
Proof.
  destruct (key_pairs_appends_default empty_cloud 0%nat
              {| history := []; heap := [[]] |}) as (Hl & _ & Hp).
  - simpl. lia.
  - intros h n _. exists n. simpl. rewrite existsb_app. simpl.
    rewrite String.eqb_refl. simpl. now rewrite orb_true_r.
  - intros h evs n [kp Hkp]. exists n. simpl in *. rewrite existsb_app.
    destruct (existsb (is_create_key_pair n) h); [reflexivity|discriminate].
  - split; [exact Hl|]. apply Hp; [reflexivity|]. simpl. now left.
Defined.

(** ** Tagging *)


Example lstrip_instance_id : lstrip "i-" "i-0abc12" = "0abc12".
Proof. reflexivity. Qed.

(** A character set is stripped, not the literal prefix: a second run of 'i'
    and '-' goes too. *)
Example lstrip_is_a_character_set : lstrip "i-" "i-i-i9f" = "9f".
Proof. reflexivity. Qed.





(** ** Scenarios of the allocator and the reconciler *)

(** A /24 parent and the requests 64, 64, 32, 32, 32, 32. *)
Lemma allocate_blocks_witness :
  exists bs,
    allocate (mk_block 0 24) [64; 64; 32; 32; 32; 32] = Ok bs /\
    length bs = 6%nat /\
    (forall i b, nth_error bs i = Some b ->
       inside (mk_block 0 24) b /\
       nth_error [64; 64; 32; 32; 32; 32] i = Some (capacity b)) /\
    (forall i j bi bj, i <> j ->
       nth_error bs i = Some bi -> nth_error bs j = Some bj -> disjoint bi bj).
Proof.
  apply (allocate_blocks (mk_block 0 24) [64; 64; 32; 32; 32; 32]).
  - unfold wf_block, capacity, address_bits. cbn [prefixlen base].
    split; [lia|]. split; [lia|]. exists 0. reflexivity.
  - repeat constructor; (exists 6; split; [lia|reflexivity])
                        || (exists 5; split; [lia|reflexivity]).
  - vm_compute. discriminate.
Defined.

Example allocate_256 :
  allocate (mk_block 0 24) [64; 64; 32; 32; 32; 32] =
  Ok [mk_block 0 26; mk_block 64 26; mk_block 128 27; mk_block 160 27;
      mk_block 192 27; mk_block 224 27].
Proof. reflexivity. Qed.

(** Five desired, one existing, three subnets holding 0, 1 and 0 of them. *)
Lemma fair_shares_witness :
  planned_shares ((5 - 1) / 3) ((5 - 1) mod 3) [0; 1; 0] = [2; 1; 1] /\
  total (planned_shares ((5 - 1) / 3) ((5 - 1) mod 3) [0; 1; 0]) = 5 - 1.
Proof.
  destruct (fair_shares 5 1 [0; 1; 0]) as (Hlay & Htot & _).
  - lia.
  - simpl. lia.
  - split; [exact Hlay | exact Htot].
Defined.

(** ** A role without subnets, in general *)

Lemma dict_get_set_same {V} (d : dict V) k v : dict_get (dict_set d k v) k = Some v.
Proof.
  induction d as [|[k' v'] d IH]; simpl.
  - now rewrite String.eqb_refl.
  - destruct (String.eqb k k') eqn:E; simpl.
    + now rewrite String.eqb_refl.
    + now rewrite E.
Qed.

Lemma dict_get_set_other {V} (d : dict V) k k' v :
  k' <> k -> dict_get (dict_set d k v) k' = dict_get d k'.
Proof.
  intros Hne. induction d as [|[k0 v0] d IH]; simpl.
  - apply String.eqb_neq in Hne. now rewrite Hne.
  - destruct (String.eqb k k0) eqn:E; simpl.
    + apply String.eqb_eq in E. subst k0.
      apply String.eqb_neq in Hne. now rewrite Hne.
    + destruct (String.eqb k' k0); [reflexivity|exact IH].
Qed.

Lemma dict_get_In {V} (d : dict V) k v : dict_get d k = Some v -> In (k, v) d.
Proof.
  induction d as [|[k' v'] d IH]; simpl; [discriminate|].
  destruct (String.eqb k k') eqn:E.
  - apply String.eqb_eq in E. intros H. inversion H; subst. now left.
  - intros H. right. now apply IH.
Qed.

Lemma for_each_Ok_each {A} (l : list A) (body : A -> M unit) : forall s s',
  for_each l body s = (Ok tt, s') ->
  forall x, In x l -> exists s1 s2, body x s1 = (Ok tt, s2).
Proof.
  induction l as [|y l IH]; intros s s' H x Hin; [contradiction|].
  cbn [for_each] in H. apply bind_Ok_inv in H as ([] & s1 & Hy & Hrest).
  destruct Hin as [->|Hin]; eauto.
Qed.

(** The first loop of [instance_roles] records None for a role without
    subnets, and later roles of other names leave that entry alone. *)
Lemma role_step_records_None W amis cfg : forall roles0 eips0 s roles eips s',
  for_fold cfg (roles0, eips0) (role_step W amis) s = (Ok (roles, eips), s') ->
  forall name,
    (~ In name (map fst cfg) -> dict_get roles name = dict_get roles0 name) /\
    (NoDup (map fst cfg) ->
     forall role_data, In (name, role_data) cfg -> role_subnets role_data = [] ->
                       dict_get roles name = Some None).
Proof.
  induction cfg as [|[n data] cfg IH]; intros roles0 eips0 s roles eips s' H name.
  - inversion H; subst. split; [reflexivity|]. intros _ ? [].
  - cbn [for_fold] in H.
    apply bind_Ok_inv in H as ([roles1 eips1] & s1 & Hstep & Hrest).
    unfold role_step in Hstep.
    apply bind_Ok_inv in Hstep as (r & s0 & Hrole & Hret).
    inversion Hret; subst; clear Hret.
    destruct (IH _ _ _ _ _ _ Hrest name) as [Hkeep Hnone].
    cbn [map fst In]. split.
    + intros Hnot. rewrite Hkeep by tauto.
      apply dict_get_set_other. intros ->. tauto.
    + intros Hnd role_data Hin Hempty.
      inversion Hnd as [|? ? Hn Hnd']; subst.
      destruct Hin as [Heq|Hin].
      * inversion Heq; subst.
        rewrite Hkeep by exact Hn.
        rewrite (instance_role_no_subnets _ _ _ _ _ _ _ _ Hempty Hrole).
        apply dict_get_set_same.
      * now apply (Hnone Hnd' role_data).
Qed.

(** The defect behind C4 for every configuration: with a role without
    subnets among the roles, [instance_roles] never completes. *)
Lemma no_subnets_never_completes W amis cfg name role_data s s' :
  NoDup (map fst cfg) -> In (name, role_data) cfg -> role_subnets role_data = [] ->
  instance_roles W amis cfg s <> (Ok tt, s').
Proof.
  intros Hnd Hin Hempty H. unfold instance_roles in H.
  apply bind_Ok_inv in H as ([roles eips] & s1 & Hfold & H).
  apply bind_Ok_inv in H as ([] & s2 & Htag & _).
  destruct (role_step_records_None _ _ _ _ _ _ _ _ _ Hfold name) as [_ Hnone].
  specialize (Hnone Hnd role_data Hin Hempty). apply dict_get_In in Hnone.
  destruct (for_each_Ok_each _ _ _ _ Htag _ Hnone) as (t1 & t2 & Hbody).
  discriminate Hbody.
Qed.

(** ** A completed pass of [instance_role] *)

Lemma total_subnet_counts existing : forall per rem,
  0 <= rem <= len existing ->
  total (subnet_counts per rem existing)
    = per * len existing + rem - total existing.
Proof.
  unfold len.
  induction existing as [|e rest IH]; intros per rem Hrem.
  - simpl in *. lia.
  - cbn [subnet_counts]. unfold subnet_count.
    destruct (rem =? 0) eqn:Hz; cbn [negb total fold_right length].
    + apply Z.eqb_eq in Hz. subst rem.
      fold (total (subnet_counts per 0 rest)). fold (total rest).
      rewrite IH by lia. lia.
    + apply Z.eqb_neq in Hz.
      fold (total (subnet_counts per (rem - 1) rest)). fold (total rest).
      rewrite IH by (cbn [length] in Hrem; lia). lia.
Qed.

Lemma lift_Ok_inv {A} (o : outcome A) s a s' :
  lift o s = (Ok a, s') -> o = Ok a /\ s' = s.
Proof. unfold lift. intros H. inversion H. auto. Qed.

Lemma query_Ok_inv {A} (q : list call -> outcome A) s a s' :
  query q s = (Ok a, s') -> q (history s) = Ok a /\ s' = s.
Proof. unfold query. intros H. inversion H. auto. Qed.

Lemma map_M_query_state {A} (f : string -> list call -> outcome A) l :
  forall t ys t',
  map_M (fun n => query (fun h => f n h)) l t = (Ok ys, t') -> t' = t.
Proof.
  induction l as [|x l IH]; simpl; intros t ys t' Hm.
  - now inversion Hm.
  - apply bind_Ok_inv in Hm as (y & t1 & Hy & Hm).
    apply bind_Ok_inv in Hm as (ys' & t2 & Hys & Hm).
    unfold query in Hy. inversion Hy; subst. inversion Hm; subst. eauto.
Qed.

Lemma launches_app a b : launches (a ++ b) = launches a ++ launches b.
Proof. unfold launches. apply flat_map_app. Qed.

Lemma launched_counts_launches evs : launched_counts evs = map snd (launches evs).
Proof.
  induction evs as [|c evs IH]; [reflexivity|].
  unfold launched_counts, launches in *. cbn [flat_map]. rewrite map_app, <- IH.
  destruct c; reflexivity.
Qed.

Lemma walked_length W role_name (walk : list string) : forall h answers evs,
  walked W role_name h walk answers evs -> length answers = length walk.
Proof.
  induction walk as [|sn walk IH]; intros h [|ans answers] evs H;
    cbn [walked] in H; try contradiction; [reflexivity|].
  destruct H as (_ & launch & rest & _ & _ & H). simpl. f_equal. eapply IH; eauto.
Qed.

(** The loop of [instance_role], pass by pass: each subnet is asked for the
    role's instances right after that pass's token is drawn, and the launches
    are the non-zero counts, each into its own subnet. *)
Lemma launch_loop_run W role_name role_data ami key_pair sgs per subnets :
  forall rem insts s rem' insts' s',
  for_fold subnets (rem, insts)
    (launch_in_subnet W role_name role_data ami key_pair sgs per) s
    = (Ok (rem', insts'), s') ->
  exists answers evs,
    walked W role_name (history s) subnets answers evs /\
    history s' = history s ++ evs /\
    launches evs =
      filter nonzero (combine subnets (subnet_counts per rem (map len answers))).
Proof.
  induction subnets as [|sn subnets IH]; intros rem insts s rem' insts' s' H.
  - inversion H; subst. exists [], []. simpl. rewrite app_nil_r. auto.
  - cbn [for_fold] in H.
    apply bind_Ok_inv in H as ([rem1 insts1] & s1 & Hbody & Hrest).
    apply launch_in_subnet_returns in Hbody as (in_subnet & Hans & Hrem & Hcases).
    apply IH in Hrest as (answers & evs & Hall & Hh & Hc).
    destruct (subnet_count per rem (len in_subnet)) as [count r] eqn:Hsc.
    simpl in Hrem, Hcases. subst rem1.
    assert (exists launch,
              history s1 = history s ++ Uuid4 :: launch /\
              ~ In Uuid4 launch /\
              launches launch = filter nonzero [(sn, count)])
      as (launch & Hs1 & Hnot & Hl).
    { destruct Hcases as [(Hz & _ & Hs1)|(Hnz & msg & key & ids & Hs1)].
      - exists []. split; [exact Hs1|]. split; [intros []|]. subst count. reflexivity.
      - eexists [_; _]. split; [exact Hs1|]. split.
        + intros [Hu|[Hu|[]]]; discriminate Hu.
        + apply Z.eqb_neq in Hnz.
          unfold launches, nonzero. cbn [flat_map app filter snd].
          rewrite Hnz. reflexivity. }
    exists (in_subnet :: answers), (Uuid4 :: launch ++ evs).
    split; [|split].
    + cbn [walked]. split; [exact Hans|].
      exists launch, evs. split; [reflexivity|]. split; [exact Hnot|].
      rewrite <- Hs1. exact Hall.
    + rewrite Hh, Hs1, <- app_assoc. reflexivity.
    + change (Uuid4 :: launch ++ evs) with ([Uuid4] ++ launch ++ evs).
      rewrite !launches_app, Hl, Hc. cbn [map subnet_counts]. rewrite Hsc.
      cbn [combine]. change (launches [Uuid4]) with (@nil (string * Z)).
      cbn [app]. rewrite <- filter_app. reflexivity.
Qed.

(** A completed pass of [instance_role], from its first log line on: the
    role had fewer instances than desired; every listed subnet was resolved
    and asked for its instance count; the subnets were walked in ascending
    order of that count; the launches are the non-zero counts of the loop. *)
Lemma instance_role_run W amis role_name role_data desired_count s l s' :
  instance_role W amis role_name role_data desired_count s = (Ok (Some l), s') ->
  exists existing keyed answers evs,
    get_role W (history s ++ [role_log role_name]) role_name = Ok existing /\
    len existing < desired_count /\
    role_subnets role_data <> [] /\
    Forall2 (fun name k =>
               get_subnet W (history s ++ [role_log role_name]) name
                 = Ok (Some (snd k)) /\
               subnet_instances_len W (history s ++ [role_log role_name]) (snd k)
                 = Ok (fst k))
            (role_subnets role_data) keyed /\
    walked W role_name (history s ++ [role_log role_name])
      (map snd (sorted by_key keyed)) answers evs /\
    history s' = (history s ++ [role_log role_name]) ++ evs /\
    launches evs =
      filter nonzero
        (combine (map snd (sorted by_key keyed))
           (subnet_counts
              ((desired_count - len existing) / len (role_subnets role_data))
              ((desired_count - len existing) mod len (role_subnets role_data))
              (map len answers))).
Proof.
  unfold instance_role, role_log. intros H.
  apply bind_Ok_inv in H as ([] & s1 & H1 & H).
  apply perform_Ok_inv in H1 as (_ & _ & Hs1).
  assert (history s1 =
          history s ++ [Emit ("creating role: " ++ role_name)%string info]) as Hh1
    by (rewrite Hs1; reflexivity).
  clear Hs1.
  apply bind_Ok_inv in H as (ami_ref & s2 & H2 & H).
  apply lift_Ok_inv in H2 as (_ & ->).
  apply bind_Ok_inv in H as (by_region & s3 & H3 & H).
  apply lift_Ok_inv in H3 as (_ & ->).
  apply bind_Ok_inv in H as (ami & s4 & H4 & H).
  apply lift_Ok_inv in H4 as (_ & ->).
  apply bind_Ok_inv in H as (key_pair & s5 & H5 & H).
  apply query_Ok_inv in H5 as (_ & ->).
  apply bind_Ok_inv in H as (sgs & s6 & H6 & H).
  apply (map_M_query_state (fun n h => get_security_group W h n)) in H6 as ->.
  apply bind_Ok_inv in H as (sns & s7 & H7 & H).
  apply (map_M_query_state (fun n h => get_subnet W h n)) in H7 as Hs7. subst s7.
  destruct (len sns =? 0) eqn:Hlen.
  { apply bind_Ok_inv in H as (? & ? & _ & H). discriminate H. }
  apply bind_Ok_inv in H as (keyed & s8 & Hkeyed & H).
  assert (Forall2 (fun n o => get_subnet W (history s1) n = Ok o)
                  (role_subnets role_data) sns) as Hsub.
  { clear -H7. revert sns H7. generalize (role_subnets role_data) as names.
    induction names as [|x names IH]; simpl; intros ys Hm.
    - inversion Hm. constructor.
    - apply bind_Ok_inv in Hm as (y & t1 & Hy & Hm).
      apply bind_Ok_inv in Hm as (ys' & t2 & Hys & Hm).
      apply query_Ok_inv in Hy as (Hy & ->). inversion Hm; subst.
      constructor; auto. }
  assert (s8 = s1 /\
          Forall2 (fun o k => o = Some (snd k) /\
                     subnet_instances_len W (history s1) (snd k) = Ok (fst k))
                  sns keyed) as (-> & Hkeys).
  { clear -Hkeyed. revert keyed s8 Hkeyed.
    induction sns as [|x sns IH]; simpl; intros keyed t' Hm.
    - inversion Hm. split; [reflexivity|constructor].
    - apply bind_Ok_inv in Hm as (y & t1 & Hy & Hm).
      apply bind_Ok_inv in Hm as (ys' & t2 & Hys & Hm).
      apply bind_Ok_inv in Hy as (sn_id & t3 & Ha & Hy).
      apply bind_Ok_inv in Hy as (k & t4 & Hk & Hy).
      destruct x as [x|]; simpl in Ha; inversion Ha; subst.
      apply query_Ok_inv in Hk as (Hk & ->).
      inversion Hy; subst. inversion Hm; subst.
      destruct (IH _ _ Hys) as (-> & Hf).
      split; [reflexivity|]. constructor; [|exact Hf]. auto. }
  apply bind_Ok_inv in H as (existing & s9 & Hrole & H).
  apply query_Ok_inv in Hrole as (Hex & ->).
  destruct (desired_count <=? len existing) eqn:Hcmp.
  { apply bind_Ok_inv in H as (v & ? & Hv & _). discriminate Hv. }
  apply bind_Ok_inv in H as ([rem insts] & s10 & Hloop & H).
  apply bind_Ok_inv in H as (enriched & s11 & Hq & H).
  apply query_Ok_inv in Hq as (_ & ->). inversion H; subst. clear H.
  apply launch_loop_run in Hloop as (answers & evs & Hall & Hh & Hc).
  assert (len (map snd (sorted by_key keyed)) = len (role_subnets role_data)) as Hn.
  { unfold len. f_equal. rewrite length_map, sorted_length.
    apply Forall2_length in Hsub, Hkeys. congruence. }
  rewrite Hn in Hc. rewrite Hh1 in *.
  exists existing, keyed, answers, evs.
  split; [exact Hex|]. split; [now apply Z.leb_gt|]. split; [|split; [|split; [|split]]].
  - intros Hnil. rewrite Hnil in Hsub. inversion Hsub; subst. discriminate Hlen.
  - clear -Hsub Hkeys. revert keyed Hkeys.
    induction Hsub as [|n o names sns Hn _ IH]; intros keyed Hkeys;
      inversion Hkeys as [|? k ? keyed' (-> & Hk) Hrest]; subst; constructor; auto.
  - exact Hall.
  - exact Hh.
  - exact Hc.
Qed.

Lemma total_launches (subnets : list string) : forall counts,
  length subnets = length counts ->
  total (map snd (filter nonzero (combine subnets counts))) = total counts.
Proof.
  induction subnets as [|sn subnets IH]; intros [|c counts] Hlen; simpl in *;
    try discriminate; [reflexivity|].
  unfold nonzero at 1. cbn [snd].
  destruct (c =? 0) eqn:Hz; cbn [negb map snd total fold_right].
  - apply Z.eqb_eq in Hz. subst c.
    fold (total counts). rewrite IH by lia. lia.
  - fold (total (map snd (filter nonzero (combine subnets counts)))).
    fold (total counts). rewrite IH by lia. reflexivity.
Qed.

Lemma subnet_counts_length existing : forall per rem,
  length (subnet_counts per rem existing) = length existing.
Proof.
  induction existing as [|e rest IH]; intros per rem; [reflexivity|].
  cbn [subnet_counts].
  destruct (subnet_count per rem e) as [count r]. simpl. now rewrite IH.
Qed.

(** ** The shares of a pass of [instance_role] *)

Lemma launches_in_walk_order (f : string -> Z) (walk : list string) :
  forall counts,
  StronglySorted Z.le (map f walk) ->
  StronglySorted Z.le (map f (map fst (filter nonzero (combine walk counts)))).
Proof.
  induction walk as [|sn walk IH]; intros [|c counts] Hs; try constructor.
  cbn [map] in Hs. apply StronglySorted_inv in Hs as [Hs Hall].
  cbn [combine filter]. destruct (nonzero (sn, c)); [|now apply IH].
  cbn [map fst]. constructor; [now apply IH|].
  rewrite Forall_forall in *. intros x Hx. apply Hall.
  rewrite in_map_iff in *. destruct Hx as (y & <- & Hy). exists y. split; [reflexivity|].
  rewrite in_map_iff in Hy. destruct Hy as ([y' c'] & <- & Hy).
  apply filter_In in Hy as [Hy _]. now apply in_combine_l in Hy.
Qed.

(** C1, as stated, fails: six instances of role web are desired and one
    exists, in subnet s3; s2 holds five instances of other roles.  The
    subnets are walked s1, s3, s2, so s3 gets a remainder unit before s2,
    which holds fewer instances of the role. *)
Lemma remainder_skips_emptier_subnet :
  ~ remainder_by_role_occupancy skewed_cloud demo_amis "web"
      (demo_role 6 "base" ["s1"; "s2"; "s3"]) 6 keyed_state.
Proof.
  intros H.
  destruct (H (map enriched ["i-s1-0"; "i-s1-1"; "i-s3-0"; "i-s2-0"])
              (snd (instance_role skewed_cloud demo_amis "web"
                      (demo_role 6 "base" ["s1"; "s2"; "s3"]) 6 keyed_state))
              ["i-1"]
              (skipn 2 (history (snd (instance_role skewed_cloud demo_amis "web"
                      (demo_role 6 "base" ["s1"; "s2"; "s3"]) 6 keyed_state)))))
    as (walk & Hsorted & Hl).
  - vm_compute. reflexivity.
  - reflexivity.
  - vm_compute. reflexivity.
  - apply launches_in_walk_order with (counts :=
      subnet_counts ((6 - len ["i-1"]) / len walk) ((6 - len ["i-1"]) mod len walk)
        (map (role_occupancy skewed_cloud (history keyed_state) "web") walk))
      in Hsorted.
    rewrite <- Hl in Hsorted.
    assert (map (role_occupancy skewed_cloud (history keyed_state) "web")
              (map fst (launches (skipn 2 (history (snd (instance_role skewed_cloud
                 demo_amis "web" (demo_role 6 "base" ["s1"; "s2"; "s3"]) 6
                 keyed_state)))))) = [0; 1; 0]) as Hocc
      by (vm_compute; reflexivity).
    rewrite Hocc in Hsorted.
    apply StronglySorted_inv in Hsorted as [Hsorted _].
    apply StronglySorted_inv in Hsorted as [_ Hall].
    inversion Hall; subst. lia.
Qed.

Lemma counts_from_shares (answers : list (list string)) : forall per rem,
  subnet_counts per rem (map len answers) =
    map (fun pa => fst pa - len (snd pa))
        (combine (planned_shares per rem (map len answers)) answers).
Proof.
  induction answers as [|a rest IH]; intros per rem; [reflexivity|].
  unfold planned_shares in *. cbn [map subnet_counts].
  destruct (subnet_count per rem (len a)) as [count r] eqn:Hsc.
  cbn [combine map fst snd]. f_equal; [lia|apply IH].
Qed.

(** C1, amended: a completed pass of [instance_role] with D desired and E
    existing instances of the role (D > E) over Z >= 1 listed subnets takes
    base = (D - E) div Z and remainder = (D - E) mod Z and walks the subnets
    in ascending order of the number of ALL instances in each subnet (not of
    the role's).  In that order the first [remainder] subnets have the share
    base + 1 and the rest base; each [create_instances] call asks for the
    share less the role's instances found in that subnet, and is not made
    when that is 0.  The shares sum to D - E and [remainder] of them are one
    above the floor share. *)
Theorem instance_role_shares (W : Cloud) (amis : dict (dict string))
  (role_name : string) (role_data : RoleCfg) (desired_count : Z) (s s' : state)
  (l : list Instance) :
  instance_role W amis role_name role_data desired_count s = (Ok (Some l), s') ->
  fair_pass W role_name role_data desired_count s s'.
Proof.
  intros H.
  apply instance_role_run in H
    as (existing & keyed & answers & evs & Hex & Hlt & Hne & Hkeyed & Hans & Hh & Hl).
  exists existing, keyed, answers, evs. cbv zeta.
  assert (length answers = length (sorted by_key keyed)) as Hla.
  { apply walked_length in Hans. now rewrite length_map in Hans. }
  assert (length answers = length (role_subnets role_data)) as Hlen.
  { apply Forall2_length in Hkeyed. rewrite Hla, sorted_length. congruence. }
  assert (1 <= len (role_subnets role_data)) as Hpos.
  { unfold len. destruct (role_subnets role_data); [congruence|simpl; lia]. }
  assert (len (map len answers) = len (role_subnets role_data)) as Hm
    by (unfold len; rewrite length_map; congruence).
  assert (1 <= length (map len answers))%nat as Hn1.
  { rewrite length_map, Hlen.
    destruct (role_subnets role_data); [congruence|simpl; lia]. }
  pose proof (fair_shares desired_count (len existing) (map len answers) Hlt Hn1)
    as F.
  cbv zeta in F. rewrite Hm, length_map, Hla in F.
  destruct F as (Hlay & Htot & Hcnt & _).
  rewrite <- Hlay.
  split; [exact Hex|]. split; [exact Hlt|]. split; [exact Hpos|].
  split; [exact Hkeyed|]. split; [apply sorted_perm|].
  split.
  { apply StronglySorted_map with (R := fun a b => by_key a b = true).
    - intros x y Hxy. now apply Z.leb_le.
    - apply sorted_ordered; [apply by_key_total | apply by_key_trans]. }
  split; [exact Hans|]. split; [exact Hh|].
  split; [|split; [exact Htot|exact Hcnt]].
  rewrite Hl, counts_from_shares. reflexivity.
Qed.

(** At the pass of the scenario above: the walk is s1, s3, s2 and the
    launches are 2, 1 and 1. *)
Lemma instance_role_shares_witness :
  fair_pass skewed_cloud "web" (demo_role 6 "base" ["s1"; "s2"; "s3"]) 6
    keyed_state
    (snd (instance_role skewed_cloud demo_amis "web"
            (demo_role 6 "base" ["s1"; "s2"; "s3"]) 6 keyed_state)).
Proof.
  apply (instance_role_shares skewed_cloud demo_amis "web"
           (demo_role 6 "base" ["s1"; "s2"; "s3"]) 6 keyed_state
           (snd (instance_role skewed_cloud demo_amis "web"
                   (demo_role 6 "base" ["s1"; "s2"; "s3"]) 6 keyed_state))
           (map enriched ["i-s1-0"; "i-s1-1"; "i-s3-0"; "i-s2-0"])).
  vm_compute. reflexivity.
Defined.

Example skewed_launches :
  launches (history (snd (instance_role skewed_cloud demo_amis "web"
                            (demo_role 6 "base" ["s1"; "s2"; "s3"]) 6 keyed_state)))
    = [("s1", 2); ("s3", 1); ("s2", 1)].
Proof. vm_compute. reflexivity. Qed.

(** * Further properties of the builder *)

(** ** What a pass of [instance_role] launches in total *)

(** X1: when [instance_role] returns a list of instances, every listed subnet
    was resolved and, in the walking order (the listed subnets sorted by their
    instance count), asked once, right after the token of its pass, for the
    role's instances in it; the counts
    passed to [create_instances] add up to the desired count, minus the role's
    instances in the VPC, minus once more the role's instances found in each
    listed subnet. *)
Theorem launches_add_up (W : Cloud) (amis : dict (dict string)) (role_name : string)
  (role_data : RoleCfg) (desired_count : Z) (s s' : state) (l : list Instance) :
  instance_role W amis role_name role_data desired_count s = (Ok (Some l), s') ->
  exists existing keyed answers evs,
    get_role W (history s ++ [role_log role_name]) role_name = Ok existing /\
    Forall2 (fun name k =>
               get_subnet W (history s ++ [role_log role_name]) name
                 = Ok (Some (snd k)) /\
               subnet_instances_len W (history s ++ [role_log role_name]) (snd k)
                 = Ok (fst k))
            (role_subnets role_data) keyed /\
    Permutation (sorted by_key keyed) keyed /\
    walked W role_name (history s ++ [role_log role_name])
      (map snd (sorted by_key keyed)) answers evs /\
    history s' = (history s ++ [role_log role_name]) ++ evs /\
    total (launched_counts evs)
      = desired_count - len existing - total (map len answers).
Proof.
  intros H.
  apply instance_role_run in H
    as (existing & keyed & answers & evs & Hex & Hlt & Hne & Hkeyed & Hans & Hh & Hl).
  exists existing, keyed, answers, evs.
  split; [exact Hex|]. split; [exact Hkeyed|]. split; [apply sorted_perm|].
  split; [exact Hans|]. split; [exact Hh|].
  assert (length answers = length (role_subnets role_data)) as Hlen.
  { apply Forall2_length in Hkeyed. apply walked_length in Hans.
    rewrite length_map, sorted_length in Hans. congruence. }
  assert (0 < len (role_subnets role_data)) as Hpos.
  { unfold len. destruct (role_subnets role_data); [congruence|simpl; lia]. }
  assert (len (map len answers) = len (role_subnets role_data)) as Hm
    by (unfold len; rewrite length_map; congruence).
  rewrite launched_counts_launches, Hl, total_launches.
  - pose proof (Z.mod_pos_bound (desired_count - len existing)
                  (len (role_subnets role_data)) Hpos).
    rewrite total_subnet_counts by (rewrite Hm; lia).
    rewrite Hm.
    pose proof (Z.div_mod (desired_count - len existing)
                  (len (role_subnets role_data))). lia.
  - rewrite subnet_counts_length, !length_map, sorted_length.
    apply Forall2_length in Hkeyed. congruence.
Qed.

Lemma launches_add_up_witness :
  exists existing keyed answers evs,
    get_role uneven_cloud (history keyed_state ++ [role_log "web"]) "web"
      = Ok existing /\
    Forall2 (fun name k =>
               get_subnet uneven_cloud (history keyed_state ++ [role_log "web"]) name
                 = Ok (Some (snd k)) /\
               subnet_instances_len uneven_cloud
                 (history keyed_state ++ [role_log "web"]) (snd k) = Ok (fst k))
            ["subnet-a"; "subnet-b"] keyed /\
    Permutation (sorted by_key keyed) keyed /\
    walked uneven_cloud "web" (history keyed_state ++ [role_log "web"])
      (map snd (sorted by_key keyed)) answers evs /\
    history (snd (instance_role uneven_cloud demo_amis "web"
                    (demo_role 5 "base" ["subnet-a"; "subnet-b"]) 5 keyed_state)) =
      (history keyed_state ++ [role_log "web"]) ++ evs /\
    total (launched_counts evs) = 5 - len existing - total (map len answers).
Proof.
  apply (launches_add_up uneven_cloud demo_amis "web"
           (demo_role 5 "base" ["subnet-a"; "subnet-b"]) 5 keyed_state
           (snd (instance_role uneven_cloud demo_amis "web"
                   (demo_role 5 "base" ["subnet-a"; "subnet-b"]) 5 keyed_state))
           [{| inst_id := "i-subnet-b-0"; inst_identity := "i-subnet-b-0" |}]).
  vm_compute. reflexivity.
Defined.

(** ** The phases of [instance_roles] *)

Section Ranks.
Variable rank : call -> option nat.

Lemma ranks_of_app a b : ranks_of rank (a ++ b) = ranks_of rank a ++ ranks_of rank b.
Proof. unfold ranks_of. apply flat_map_app. Qed.

Lemma ranks_of_in_rank k evs :
  Forall (in_rank rank k) evs -> Forall (eq k) (ranks_of rank evs).
Proof.
  induction 1 as [|c evs Hc _ IH]; simpl; [constructor|].
  destruct Hc as [Hc|Hc]; rewrite Hc; simpl; auto.
Qed.

Lemma ranks_of_In c k evs :
  In c evs -> rank c = Some k -> In k (ranks_of rank evs).
Proof.
  intros Hin Hk. unfold ranks_of. apply in_flat_map.
  exists c. rewrite Hk. split; [exact Hin | now left].
Qed.

(** Two computations in a row, the first in phase [j], the second ordered and
    in phases above [j]. *)
Lemma ranks_then {A} (m : M A) (f : A -> M unit) (j k : nat) :
  (j <= k)%nat ->
  emits (in_rank rank j) m ->
  (forall a s, exists evs,
      history (snd (f a s)) = history s ++ evs /\
      StronglySorted le (ranks_of rank evs) /\ Forall (le k) (ranks_of rank evs)) ->
  forall s, exists evs,
    history (snd (bind m f s)) = history s ++ evs /\
    StronglySorted le (ranks_of rank evs) /\ Forall (le j) (ranks_of rank evs).
Proof.
  intros Hjk Hm Hf s. unfold bind.
  destruct (Hm s) as (e1 & H1 & F1). apply ranks_of_in_rank in F1.
  destruct (m s) as [[a|e] s1]; simpl in *.
  - destruct (Hf a s1) as (e2 & H2 & S2 & F2).
    exists (e1 ++ e2). rewrite H2, H1, app_assoc, ranks_of_app.
    split; [reflexivity|]. split.
    + apply ascending_app; auto; [now apply all_equal_ascending with j|].
      rewrite Forall_forall in F1, F2. intros x y Hx Hy.
      apply F1 in Hx. apply F2 in Hy. lia.
    + apply Forall_app. split.
      * eapply Forall_impl; [|exact F1]. intros; lia.
      * eapply Forall_impl; [|exact F2]. intros; lia.
  - exists e1. split; [exact H1|]. split.
    + now apply all_equal_ascending with j.
    + eapply Forall_impl; [|exact F1]. intros; lia.
Qed.

Lemma ranks_last (m : M unit) (k : nat) :
  emits (in_rank rank k) m ->
  forall s, exists evs,
    history (snd (m s)) = history s ++ evs /\
    StronglySorted le (ranks_of rank evs) /\ Forall (le k) (ranks_of rank evs).
Proof.
  intros Hm s. destruct (Hm s) as (evs & H & F). apply ranks_of_in_rank in F.
  exists evs. split; [exact H|]. split.
  - now apply all_equal_ascending with k.
  - eapply Forall_impl; [|exact F]. intros; lia.
Qed.
End Ranks.

(** One step of a proof of [emits], the condition on each call left to
    [side]. *)
Ltac emits_with W side :=
  repeat match goal with
  | |- emits _ (bind _ _) => apply emits_bind; [|intros ?]
  | |- emits _ (ret _) => apply emits_ret
  | |- emits _ (raise _) => apply emits_raise
  | |- emits _ (lift _) => apply emits_lift
  | |- emits _ (query _) => apply emits_query
  | |- emits _ (attr _ _) => apply emits_attr
  | |- emits _ (alloc _) => apply emits_alloc
  | |- emits _ (deref _) => apply emits_deref
  | |- emits _ (list_append _ _) => apply emits_list_append
  | |- emits _ (perform _ _ _) => apply (emits_perform W); side
  | |- emits _ (emit _ _ _) => apply (emits_perform W); side
  | |- emits _ (update_tags _ _ _) => apply (emits_perform W); side
  | |- emits _ (for_each _ _) => apply emits_for_each; intros ?
  | |- emits _ (for_fold _ _ _) => apply emits_for_fold; intros ? ?
  | |- emits _ (map_M _ _) => apply emits_map_M; intros ?
  | |- emits _ (try_except _ _ _) => apply emits_try_except; [|intros ?]
  | |- emits _ (match ?x with _ => _ end) => destruct x
  end.

Ltac phase_side := unfold in_rank; cbn [role_phase]; auto.

(** X2: within [instance_roles] the calls come in three phases, whatever
    happens: first every role is reconciled and launched, then the instances
    and volumes are tagged, then the elastic IPs are allocated.  No launch
    follows a tag, and neither a launch nor a tag follows an elastic IP. *)
Theorem instance_roles_phases (W : Cloud) (amis : dict (dict string))
  (cfg : dict RoleCfg) (s : state) :
  exists evs,
    history (snd (instance_roles W amis cfg s)) = history s ++ evs /\
    StronglySorted le (ranks_of role_phase evs) /\
    (forall before after r tags sn ami ty n m k g t,
       evs = before ++ UpdateTags r tags :: after ->
       ~ In (CreateInstances sn ami ty n m k g t) after) /\
    (forall before after i sn ami ty n m k g t r tags,
       evs = before ++ AllocateEip i :: after ->
       ~ In (CreateInstances sn ami ty n m k g t) after /\
       ~ In (UpdateTags r tags) after).
Proof.
  assert (exists evs,
            history (snd (instance_roles W amis cfg s)) = history s ++ evs /\
            StronglySorted le (ranks_of role_phase evs)) as (evs & Hh & Hs).
  { unfold instance_roles.
    destruct (ranks_then role_phase
                (for_fold cfg ([], []) (role_step W amis))
                (fun x => let '(roles, roles_with_eips) := x in
                   bind (for_each roles (fun '(role_name, role_instances) =>
                           tag_instances W role_name role_instances))
                     (fun _ => for_each roles_with_eips (fun role_name =>
                        bind (lift (dict_getitem roles role_name))
                          (fun role_instances =>
                           match role_instances with
                           | None => raise none_not_iterable
                           | Some role_instances =>
                               for_each role_instances (fun instance =>
                                 bind (emit W ("allocating eip and associating with "
                                         ++ inst_identity instance)%string info)
                                   (fun _ => bind
                                      (perform W (AllocateEip (inst_id instance))
                                         (new_eip W))
                                      (fun eip => emit W ("allocated eip " ++ eip
                                         ++ " and associated with "
                                         ++ inst_identity instance)%string info)))
                           end))))
                0 1 (Nat.le_succ_diag_r 0)) with (s := s) as (evs & H & S1 & _).
    - unfold role_step, instance_role, launch_in_subnet, subnet_count.
      emits_with W phase_side.
    - intros [roles eips] t.
      apply (ranks_then role_phase) with (k := 2%nat); [lia| |].
      + unfold tag_instances, tag_volume. emits_with W phase_side.
      + intros _ t'. apply ranks_last. emits_with W phase_side.
    - exists evs. auto. }
  exists evs. split; [exact Hh|]. split; [exact Hs|]. split.
  - intros before after r tags sn ami ty n m k g t -> Hin.
    rewrite ranks_of_app in Hs. cbn [ranks_of flat_map role_phase app] in Hs.
    apply ascending_after in Hs. rewrite Forall_forall in Hs.
    specialize (Hs 0%nat (ranks_of_In role_phase _ _ _ Hin eq_refl)). lia.
  - intros before after i sn ami ty n m k g t r tags ->.
    rewrite ranks_of_app in Hs. cbn [ranks_of flat_map role_phase app] in Hs.
    apply ascending_after in Hs. rewrite Forall_forall in Hs.
    split; intros Hin.
    + specialize (Hs 0%nat (ranks_of_In role_phase _ _ _ Hin eq_refl)). lia.
    + specialize (Hs 1%nat (ranks_of_In role_phase _ _ _ Hin eq_refl)). lia.
Qed.

(** X3: roles that do not ask for an elastic IP never get one: when no role
    of the configuration has [eip] set, [instance_roles] makes no
    [allocate_eip] call, whatever else happens. *)
Theorem no_eip_without_request (W : Cloud) (amis : dict (dict string))
  (cfg : dict RoleCfg) (s : state) :
  (forall name role_data, In (name, role_data) cfg -> role_eip role_data = false) ->
  exists evs,
    history (snd (instance_roles W amis cfg s)) = history s ++ evs /\
    Forall (fun c => is_allocate_eip c = false) evs.
Proof.
  intros Hno.
  assert (forall cfg' roles0 eips0 t roles eips t',
            (forall name role_data, In (name, role_data) cfg' ->
                                    role_eip role_data = false) ->
            for_fold cfg' (roles0, eips0) (role_step W amis) t
              = (Ok (roles, eips), t') -> eips = eips0) as Heips.
  { induction cfg' as [|[n d] cfg' IH]; intros roles0 eips0 t roles eips t' Hf H.
    - now inversion H.
    - cbn [for_fold] in H.
      apply bind_Ok_inv in H as ([roles1 eips1] & t1 & Hstep & Hrest).
      unfold role_step in Hstep.
      apply bind_Ok_inv in Hstep as (r & t0 & _ & Hret).
      rewrite (Hf n d (or_introl eq_refl)) in Hret. inversion Hret; subst.
      eapply IH; [|exact Hrest]. intros; eapply Hf; right; eauto. }
  assert (emits (fun c => is_allocate_eip c = false)
            (for_fold cfg ([], []) (role_step W amis))) as Hfold.
  { unfold role_step, instance_role, launch_in_subnet, subnet_count.
    emits_with W ltac:(reflexivity). }
  unfold instance_roles, bind at 1.
  destruct (Hfold s) as (e1 & H1 & F1).
  destruct (for_fold cfg ([], []) (role_step W amis) s) as [[[roles eips]|e] s1] eqn:Hf;
    simpl in H1.
  - apply Heips in Hf; [|exact Hno]. subst eips.
    assert (emits (fun c => is_allocate_eip c = false)
              (bind (for_each roles (fun '(role_name, role_instances) =>
                       tag_instances W role_name role_instances))
                    (fun _ => ret tt))) as Htag.
    { unfold tag_instances, tag_volume. emits_with W ltac:(reflexivity). }
    destruct (Htag s1) as (e2 & H2 & F2).
    exists (e1 ++ e2). split; [|apply Forall_app; auto].
    rewrite app_assoc, <- H1. exact H2.
  - exists e1. simpl. auto.
Qed.

Lemma no_eip_without_request_witness :
  exists evs,
    history (snd (instance_roles empty_cloud demo_amis
                    [("db", demo_role 1 "base" ["subnet-b"])] keyed_state))
      = history keyed_state ++ evs /\
    Forall (fun c => is_allocate_eip c = false) evs.
Proof.
  apply (no_eip_without_request empty_cloud demo_amis
           [("db", demo_role 1 "base" ["subnet-b"])] keyed_state).
  intros name role_data [H|[]]. inversion H. reflexivity.
Defined.

(** ** The list objects of the configuration *)

Section Preserves.
Variable W : Cloud.
Variable R : state -> state -> Prop.
Hypothesis R_refl : forall s, R s s.
Hypothesis R_trans : forall s1 s2 s3, R s1 s2 -> R s2 s3 -> R s1 s3.
Hypothesis R_history : forall s h, R s {| history := h; heap := heap s |}.

Lemma preserves_ret {A} (a : A) : preserves R (ret a).
Proof. intros s. apply R_refl. Qed.

Lemma preserves_raise {A} e : preserves R (@raise A e).
Proof. intros s. apply R_refl. Qed.

Lemma preserves_lift {A} (o : outcome A) : preserves R (lift o).
Proof. intros s. apply R_refl. Qed.

Lemma preserves_query {A} (q : list call -> outcome A) : preserves R (query q).
Proof. intros s. apply R_refl. Qed.

Lemma preserves_attr {A} (o : option A) name : preserves R (attr o name).
Proof. destruct o; [apply preserves_ret | apply preserves_raise]. Qed.

Lemma preserves_deref a : preserves R (deref a).
Proof. intros s. apply R_refl. Qed.

Lemma preserves_perform {A} c (answer : list call -> A) :
  preserves R (perform W c answer).
Proof.
  intros s. unfold perform. destruct (fault W (history s) c); apply R_history.
Qed.

Lemma preserves_bind {A B} (m : M A) (f : A -> M B) :
  preserves R m -> (forall a, preserves R (f a)) -> preserves R (bind m f).
Proof.
  intros Hm Hf s. unfold bind. specialize (Hm s).
  destruct (m s) as [[a|e] s1]; simpl in *; [|exact Hm].
  eapply R_trans; [exact Hm|apply Hf].
Qed.

Lemma preserves_try_except {A} (body : M A) catches handler :
  preserves R body -> (forall e, preserves R (handler e)) ->
  preserves R (try_except body catches handler).
Proof.
  intros Hm Hh s. unfold try_except. specialize (Hm s).
  destruct (body s) as [[a|e] s1]; simpl in *; [exact Hm|].
  destruct (catches e); [|exact Hm].
  eapply R_trans; [exact Hm|apply Hh].
Qed.

Lemma preserves_for_each {A} (l : list A) (body : A -> M unit) :
  (forall x, preserves R (body x)) -> preserves R (for_each l body).
Proof.
  intros Hb. induction l as [|x l IH]; simpl.
  - apply preserves_ret.
  - apply preserves_bind; auto.
Qed.

Lemma preserves_for_fold {A S} (l : list A) (body : S -> A -> M S) :
  (forall acc x, preserves R (body acc x)) ->
  forall acc, preserves R (for_fold l acc body).
Proof.
  intros Hb. induction l as [|x l IH]; intros acc; simpl.
  - apply preserves_ret.
  - apply preserves_bind; auto.
Qed.

Lemma preserves_map_M {A B} (f : A -> M B) (l : list A) :
  (forall x, preserves R (f x)) -> preserves R (map_M f l).
Proof.
  intros Hf. induction l as [|x l IH]; simpl.
  - apply preserves_ret.
  - apply preserves_bind; [apply Hf|intros y].
    apply preserves_bind; [exact IH|intros ys]. apply preserves_ret.
Qed.

Ltac preserves_auto :=
  repeat match goal with
  | |- preserves _ (bind _ _) => apply preserves_bind; [|intros ?]
  | |- preserves _ (ret _) => apply preserves_ret
  | |- preserves _ (raise _) => apply preserves_raise
  | |- preserves _ (lift _) => apply preserves_lift
  | |- preserves _ (query _) => apply preserves_query
  | |- preserves _ (attr _ _) => apply preserves_attr
  | |- preserves _ (deref _) => apply preserves_deref
  | |- preserves _ (perform _ _ _) => apply preserves_perform
  | |- preserves _ (emit _ _ _) => apply preserves_perform
  | |- preserves _ (update_tags _ _ _) => apply preserves_perform
  | |- preserves _ (for_each _ _) => apply preserves_for_each; intros ?
  | |- preserves _ (for_fold _ _ _) => apply preserves_for_fold; intros ? ?
  | |- preserves _ (map_M _ _) => apply preserves_map_M; intros ?
  | |- preserves _ (try_except _ _ _) => apply preserves_try_except; [|intros ?]
  | |- preserves _ (match ?x with _ => _ end) => destruct x
  end.

Lemma route_tables_preserves cfg : preserves R (route_tables W cfg).
Proof. unfold route_tables. preserves_auto. Qed.

Lemma subnets_preserves cfg : preserves R (subnets W cfg).
Proof. unfold subnets. preserves_auto. Qed.

Lemma associate_preserves cfg :
  preserves R (associate_route_tables_with_subnets W cfg).
Proof. unfold associate_route_tables_with_subnets. preserves_auto. Qed.

Lemma endpoints_preserves cfg : preserves R (endpoints W cfg).
Proof. unfold endpoints. preserves_auto. Qed.

Lemma security_groups_preserves cfg : preserves R (security_groups W cfg).
Proof. unfold security_groups. preserves_auto. Qed.

Lemma instance_roles_preserves amis cfg : preserves R (instance_roles W amis cfg).
Proof.
  unfold instance_roles, role_step, instance_role, launch_in_subnet, subnet_count,
    tag_instances, tag_volume.
  preserves_auto.
Qed.

Lemma security_group_rules_preserves cfg : preserves R (security_group_rules W cfg).
Proof. unfold security_group_rules. preserves_auto. Qed.

Lemma wait_until_running_preserves : preserves R (wait_until_running W).
Proof. unfold wait_until_running. preserves_auto. Qed.

Lemma lock_instances_preserves : preserves R (lock_instances W).
Proof. unfold lock_instances. preserves_auto. Qed.

Lemma ensure_key_pairs_preserves names :
  preserves R (for_each names (ensure_key_pair W)).
Proof. unfold ensure_key_pair. preserves_auto. Qed.

Lemma sequence_preserves (stmts : list (M unit)) :
  Forall (preserves R) stmts -> preserves R (sequence stmts).
Proof.
  unfold sequence. induction 1 as [|st stmts Hst _ IH]; simpl.
  - apply preserves_ret.
  - apply preserves_bind; auto.
Qed.
End Preserves.

Lemma heap_append_length h : forall a x, length (heap_append h a x) = length h.
Proof.
  induction h as [|l h IH]; intros a x; simpl; [reflexivity|].
  destruct a; simpl; auto.
Qed.

Lemma same_at_refl a s : same_at a s s.
Proof. intros H. auto. Qed.

Lemma same_at_trans a s1 s2 s3 : same_at a s1 s2 -> same_at a s2 s3 -> same_at a s1 s3.
Proof.
  intros H12 H23 H. destruct (H12 H) as [H2 E2]. destruct (H23 H2) as [H3 E3].
  split; [exact H3|congruence].
Qed.

Lemma same_at_history a s h : same_at a s {| history := h; heap := heap s |}.
Proof. intros H. simpl. auto. Qed.

(** X4: a build leaves every list object alone except the one under
    'key_pairs': whatever the outcome, a list that is not the configuration's
    key pair list holds after [apply_all] what it held before. *)
Theorem build_touches_only_key_pairs (W : Cloud) (vpc_name : string)
  (config : Config) (s : state) (a : addr) :
  (a < length (heap s))%nat ->
  cfg_key_pairs config <> Some a ->
  nth a (heap (snd (apply_all W vpc_name config s))) [] = nth a (heap s) [].
Proof.
  intros Ha Hne.
  pose proof (same_at_refl a) as Hr. pose proof (same_at_trans a) as Ht.
  pose proof (same_at_history a) as Hh.
  assert (forall names t,
            heap (snd (for_each names (ensure_key_pair W) t)) = heap t) as Hk'.
  { intros names.
    apply (ensure_key_pairs_preserves W same_heap
             (fun _ => eq_refl) (fun s1 s2 s3 H1 H2 => eq_trans H2 H1)
             (fun _ _ => eq_refl)). }
  assert (preserves (same_at a) (apply_all W vpc_name config)) as Hp.
  { unfold apply_all. apply (preserves_try_except (same_at a) Ht).
    - unfold _apply_all. apply (preserves_bind (same_at a) Ht).
      { apply (preserves_lift (same_at a) Hr). }
      intros amis. apply (sequence_preserves (same_at a) Hr Ht).
      unfold pipeline.
      repeat match goal with
             | |- Forall _ (_ :: _) => apply Forall_cons
             | |- Forall _ [] => apply Forall_nil
             end.
      + apply (preserves_perform W (same_at a) Hh).
      + apply (route_tables_preserves W (same_at a) Hr Ht Hh).
      + apply (subnets_preserves W (same_at a) Hr Ht Hh).
      + apply (associate_preserves W (same_at a) Hr Ht Hh).
      + apply (endpoints_preserves W (same_at a) Hr Ht Hh).
      + intros t Hat. unfold bind.
        destruct (cfg_key_pairs config) as [b|] eqn:Hk.
        * cbn [ret]. unfold key_pairs, bind, list_append, deref. cbn [heap history].
          rewrite Hk'. cbn [heap].
          rewrite heap_append_length. split; [exact Hat|].
          apply heap_append_other. congruence.
        * unfold alloc. cbn [heap history].
          unfold key_pairs, bind, list_append, deref. cbn [heap history].
          rewrite Hk'. cbn [heap].
          rewrite heap_append_length, length_app. cbn [length]. split; [lia|].
          rewrite heap_append_other by lia. apply app_nth1. exact Hat.
      + apply (security_groups_preserves W (same_at a) Hr Ht Hh).
      + apply (instance_roles_preserves W (same_at a) Hr Ht Hh).
      + apply (security_group_rules_preserves W (same_at a) Hr Ht Hh).
      + apply (wait_until_running_preserves W (same_at a) Hr Ht Hh).
      + apply (lock_instances_preserves W (same_at a) Ht Hh).
      + apply (preserves_perform W (same_at a) Hh).
    - intros e. unfold emit.
      repeat (apply (preserves_bind (same_at a) Ht);
              [apply (preserves_perform W (same_at a) Hh)|intros ?]).
      apply (preserves_raise (same_at a) Hr). }
  apply (Hp s Ha).
Qed.

Lemma build_touches_only_key_pairs_witness :
  nth 0%nat (heap (snd (apply_all empty_cloud "demo" one_role_config
                          {| history := []; heap := [["prod"; "staging"]] |}))) []
    = ["prod"; "staging"].
Proof.
  apply (build_touches_only_key_pairs empty_cloud "demo" one_role_config
           {| history := []; heap := [["prod"; "staging"]] |} 0%nat).
  - simpl. lia.
  - discriminate.
Defined.

(** ** Running a stage again *)

Lemma ensure_present_no_call W names : forall t,
  (forall n, In n names -> key_pair_present W (history t) n) ->
  for_each names (ensure_key_pair W) t = (Ok tt, t).
Proof.
  induction names as [|x names IH]; intros t Hall; [reflexivity|].
  cbn [for_each]. unfold bind at 1, ensure_key_pair at 1, bind at 1, query.
  destruct (Hall x (or_introl eq_refl)) as [kp Hkp]. rewrite Hkp. cbn [ret].
  apply IH. intros n Hn. apply Hall. now right.
Qed.

(** X5: [key_pairs] run a second time on the same list, as a second build with
    the same configuration does, appends a second 'default' to it, and (the
    collaborator finding what was created and losing nothing) makes no call at
    all: every key pair is found. *)
Theorem key_pairs_twice (W : Cloud) (key_pair_cfg : addr) (s : state) :
  (key_pair_cfg < length (heap s))%nat ->
  (forall h n, fault W h (CreateKeyPair n) = None ->
               key_pair_present W (h ++ [CreateKeyPair n]) n) ->
  (forall h evs n, key_pair_present W h n -> key_pair_present W (h ++ evs) n) ->
  fst (key_pairs W key_pair_cfg s) = Ok tt ->
  let s1 := snd (key_pairs W key_pair_cfg s) in
  key_pairs W key_pair_cfg s1 =
    (Ok tt, {| history := history s1;
               heap := heap_append (heap s1) key_pair_cfg "default" |}) /\
  nth key_pair_cfg (heap (snd (key_pairs W key_pair_cfg s1))) []
    = nth key_pair_cfg (heap s) [] ++ ["default"; "default"].
Proof.
  intros Ha Hcreate Hstay Hok s1.
  set (names := nth key_pair_cfg (heap s) [] ++ ["default"]).
  set (t := {| history := history s;
               heap := heap_append (heap s) key_pair_cfg "default" |}).
  assert (key_pairs W key_pair_cfg s = for_each names (ensure_key_pair W) t) as Hrun.
  { unfold key_pairs, bind, list_append, deref. fold t. simpl.
    rewrite heap_append_same by assumption. reflexivity. }
  assert (heap s1 = heap_append (heap s) key_pair_cfg "default") as Hheap.
  { unfold s1. rewrite Hrun, ensure_key_pair_heap. reflexivity. }
  assert (forall n, In n names -> key_pair_present W (history s1) n) as Hpresent.
  { unfold s1. rewrite Hrun in *.
    destruct (for_each names (ensure_key_pair W) t) as [[[]|e] t'] eqn:Hfe;
      simpl in Hok; [|discriminate].
    simpl. eapply ensure_key_pairs_present; eauto. }
  assert (nth key_pair_cfg (heap s1) [] = names) as Hnames.
  { rewrite Hheap. now apply heap_append_same. }
  assert (key_pair_cfg < length (heap s1))%nat as Ha1
    by (rewrite Hheap, heap_append_length; exact Ha).
  assert (key_pairs W key_pair_cfg s1 =
          (Ok tt, {| history := history s1;
                     heap := heap_append (heap s1) key_pair_cfg "default" |})) as Hrun2.
  { unfold key_pairs, bind at 1, list_append, bind at 1, deref. cbn [heap history].
    rewrite heap_append_same by assumption. rewrite Hnames.
    apply ensure_present_no_call. cbn [history].
    intros n Hn. apply in_app_or in Hn as [Hn|[<-|[]]].
    - now apply Hpresent.
    - apply Hpresent. unfold names. apply in_or_app. right. now left. }
  split; [exact Hrun2|].
  rewrite Hrun2. cbn [snd heap].
  rewrite heap_append_same by assumption. rewrite Hnames. unfold names.
  rewrite <- app_assoc. reflexivity.
Qed.

Lemma key_pairs_twice_witness :
  nth 0%nat
    (heap (snd (key_pairs empty_cloud 0%nat
                  (snd (key_pairs empty_cloud 0%nat
                          {| history := []; heap := [["deploy"]] |}))))) []
    = ["deploy"] ++ ["default"; "default"].
Proof.
  destruct (key_pairs_twice empty_cloud 0%nat
              {| history := []; heap := [["deploy"]] |}) as [_ H].
  - simpl. lia.
  - intros h n _. exists n. simpl. rewrite existsb_app. simpl.
    rewrite String.eqb_refl. simpl. now rewrite orb_true_r.
  - intros h evs n [kp Hkp]. exists n. simpl in *. rewrite existsb_app.
    destruct (existsb (is_create_key_pair n) h); [reflexivity|discriminate].
  - reflexivity.
  - exact H.
Defined.

(** X6: [security_groups] only creates what is missing: when every
    configured group is found, it makes no call, writes no log line and
    returns with the state it was given. *)
Theorem security_groups_found (W : Cloud) (cfg : dict (list RuleCfg)) (s : state) :
  (forall sg_name rules, In (sg_name, rules) cfg ->
     exists sg, get_security_group W (history s) sg_name = Ok (Some sg)) ->
  security_groups W cfg s = (Ok tt, s).
Proof.
  unfold security_groups.
  induction cfg as [|[sg_name rules] cfg IH]; intros Hall; [reflexivity|].
  cbn [for_each]. unfold bind at 1, bind at 1, query.
  destruct (Hall sg_name rules (or_introl eq_refl)) as [sg Hsg]. rewrite Hsg.
  cbn [ret]. apply IH. intros n r Hin. apply (Hall n r). now right.
Qed.

Lemma security_groups_found_witness :
  security_groups empty_cloud [("web", [("0.0.0.0/0", "tcp", "22")]); ("db", [])]
    fresh = (Ok tt, fresh).
Proof.
  apply security_groups_found.
  intros sg_name rules _. eexists. reflexivity.
Defined.

(** ** The ends of the pipeline *)

(** X7: a configuration without 'amis' builds nothing: the KeyError is raised
    before the VPC is even looked up; [apply_all] writes its four log lines
    (the logger working) and re-raises. *)
Theorem missing_amis_builds_nothing (W : Cloud) (vpc_name : string)
  (config : Config) (s : state) :
  cfg_amis config = None ->
  (forall h msg lvl, fault W h (Emit msg lvl) = None) ->
  apply_all W vpc_name config s =
    (Raise (mk_exn KeyError "'amis'"),
     {| history := history s ++
          [Emit "Botoform failed to build environment!" error;
           Emit "Failure reason: 'amis'" error;
           Emit (format_exc W (mk_exn KeyError "'amis'")) debug;
           Emit "Tearing down failed environment!" error];
        heap := heap s |}).
Proof.
  intros Hamis Hlog.
  unfold apply_all, try_except, _apply_all, bind at 1, lift. rewrite Hamis.
  cbn [is_Exception exn_cls].
  unfold bind, emit, perform, raise. cbn [history heap exn_str].
  rewrite !Hlog. cbn [history heap]. rewrite <- !app_assoc. reflexivity.
Qed.

Lemma missing_amis_builds_nothing_witness :
  fst (apply_all empty_cloud "demo"
         {| cfg_amis := None; cfg_route_tables := []; cfg_subnets := [];
            cfg_endpoints := []; cfg_key_pairs := None;
            cfg_security_groups := []; cfg_instance_roles := [] |} fresh)
    = Raise (mk_exn KeyError "'amis'").
Proof.
  rewrite (missing_amis_builds_nothing empty_cloud "demo"
             {| cfg_amis := None; cfg_route_tables := []; cfg_subnets := [];
                cfg_endpoints := []; cfg_key_pairs := None;
                cfg_security_groups := []; cfg_instance_roles := [] |} fresh).
  - reflexivity.
  - reflexivity.
  - intros h msg lvl. reflexivity.
Defined.

(** X8: once the instances are running, the build succeeds whatever
    [lock_instances] does: with the ten statements before the lock completed
    and the logger working, [apply_all] returns normally and its last call is
    the "done" log line. *)
Theorem lock_cannot_fail_the_build (W : Cloud) (vpc_name : string)
  (config : Config) (amis : dict (dict string)) (s s1 : state) :
  cfg_amis config = Some amis ->
  sequence (firstn 10 (pipeline W vpc_name amis config)) s = (Ok tt, s1) ->
  (forall h msg lvl, fault W h (Emit msg lvl) = None) ->
  exists evs,
    apply_all W vpc_name config s =
      (Ok tt,
       {| history := history s1 ++ evs
            ++ [Emit "done! don't you look awesome. : )" info];
          heap := heap s1 |}) /\
    (evs = [Emit "locking instances to prevent termination" info; LockInstances] \/
     evs = [Emit "locking instances to prevent termination" info; LockInstances;
            Emit "could not lock instances, continuing..." warning]).
Proof.
  intros Hamis Hpre Hlog.
  assert (pipeline W vpc_name amis config =
          firstn 10 (pipeline W vpc_name amis config)
            ++ [lock_instances W; emit W "done! don't you look awesome. : )" info])
    as Hsplit by reflexivity.
  unfold apply_all, try_except, _apply_all, bind at 1, lift. rewrite Hamis.
  rewrite Hsplit, (sequence_app _ _ _ _ Hpre).
  unfold sequence. cbn [for_each].
  unfold lock_instances, try_except, bind, emit, perform, ret.
  cbn [history heap]. rewrite !Hlog.
  destruct (fault W _ LockInstances) as [e|]; cbn [history heap].
  - rewrite !Hlog. cbn [history heap]. eexists. split; [|right; reflexivity].
    rewrite <- !app_assoc. reflexivity.
  - rewrite !Hlog. cbn [history heap]. eexists. split; [|left; reflexivity].
    rewrite <- !app_assoc. reflexivity.
Qed.

Lemma lock_cannot_fail_the_build_witness :
  fst (apply_all unlockable_cloud "demo" one_role_config fresh) = Ok tt.
Proof.
  destruct (lock_cannot_fail_the_build unlockable_cloud "demo" one_role_config
              demo_amis fresh
              (snd (sequence (firstn 10 (pipeline unlockable_cloud "demo" demo_amis
                                           one_role_config)) fresh)))
    as (evs & H & _).
  - reflexivity.
  - vm_compute. reflexivity.
  - intros h msg lvl. reflexivity.
  - rewrite H. reflexivity.
Defined.

(** ** What the loops over the configuration call *)

(** X9: [associate_route_tables_with_subnets] associates exactly the subnets
    that name a route table, in configuration order: the associations made are
    always the first ones of that list, and all of it when the stage
    completes.  A subnet without 'route_table' is passed over silently. *)
Theorem associations_follow_config (W : Cloud) (subnet_cfg : dict SubnetCfg)
  (s : state) :
  exists evs k,
    history (snd (associate_route_tables_with_subnets W subnet_cfg s))
      = history s ++ evs /\
    associations evs = firstn k (configured_associations subnet_cfg) /\
    (fst (associate_route_tables_with_subnets W subnet_cfg s) = Ok tt ->
     associations evs = configured_associations subnet_cfg).
Proof.
  unfold associate_route_tables_with_subnets. revert s.
  induction subnet_cfg as [|[sn_name sn_data] cfg IH]; intros s.
  - exists [], 0%nat. simpl. rewrite app_nil_r. auto.
  - cbn [for_each configured_associations flat_map fst snd].
    fold (configured_associations cfg).
    rewrite bind_run.
    destruct (sn_route_table sn_data) as [rt|].
    + rewrite bind_run, emit_run.
      destruct (fault W (history s) _) as [e|].
      { exists [Emit ("associating rt " ++ rt ++ " with sn " ++ sn_name)%string info],
               0%nat.
        cbn [snd fst history]. split; [reflexivity|]. split; [reflexivity|].
        discriminate. }
      rewrite perform_run. cbn [history heap].
      destruct (fault W _ (AssociateRouteTableWithSubnet rt sn_name)) as [e|].
      { exists [Emit ("associating rt " ++ rt ++ " with sn " ++ sn_name)%string info;
                AssociateRouteTableWithSubnet rt sn_name], 1%nat.
        cbn [snd fst history]. rewrite <- app_assoc.
        split; [reflexivity|]. split; [reflexivity|]. discriminate. }
      match goal with |- context [for_each cfg ?body ?t] =>
        destruct (IH t) as (evs & k & Hh & Hk & Hok) end.
      cbn [history] in Hh.
      exists (Emit ("associating rt " ++ rt ++ " with sn " ++ sn_name)%string info
                :: AssociateRouteTableWithSubnet rt sn_name :: evs), (S k).
      split; [rewrite Hh, <- !app_assoc; reflexivity|].
      cbn [associations flat_map app firstn]. fold (associations evs).
      split; [now rewrite Hk|]. intros H. now rewrite Hok.
    + cbn [ret app].
      destruct (IH s) as (evs & k & Hh & Hk & Hok). exists evs, k. auto.
Qed.

(** X10: [wait_until_running] waits for the instances the VPC lists when the
    stage starts, in that order, one call each; a failure stops the waiting at
    that instance. *)
Theorem waits_follow_instances (W : Cloud) (s : state) (instances : list Instance) :
  evpc_instances W (history s) = Ok instances ->
  exists evs k,
    history (snd (wait_until_running W s)) = history s ++ evs /\
    waits evs = firstn k (map inst_id instances) /\
    (fst (wait_until_running W s) = Ok tt -> waits evs = map inst_id instances).
Proof.
  intros Hq. unfold wait_until_running. rewrite bind_run. unfold query. rewrite Hq.
  clear Hq. revert s.
  induction instances as [|i instances IH]; intros s.
  - exists [], 0%nat. simpl. rewrite app_nil_r. auto.
  - cbn [for_each map]. rewrite bind_run, bind_run, emit_run.
    destruct (fault W (history s) _) as [e|].
    { exists [Emit ("waiting for " ++ inst_identity i ++ " to start")%string info],
             0%nat.
      cbn [snd fst history]. split; [reflexivity|]. split; [reflexivity|].
      discriminate. }
    rewrite perform_run. cbn [history heap].
    destruct (fault W _ (WaitUntilRunning (inst_id i))) as [e|].
    { exists [Emit ("waiting for " ++ inst_identity i ++ " to start")%string info;
              WaitUntilRunning (inst_id i)], 1%nat.
      cbn [snd fst history]. rewrite <- app_assoc.
      split; [reflexivity|]. split; [reflexivity|]. discriminate. }
    match goal with |- context [for_each instances ?body ?t] =>
      destruct (IH t) as (evs & k & Hh & Hk & Hok) end.
    cbn [history] in Hh.
    exists (Emit ("waiting for " ++ inst_identity i ++ " to start")%string info
              :: WaitUntilRunning (inst_id i) :: evs), (S k).
    split; [rewrite Hh, <- !app_assoc; reflexivity|].
    cbn [waits flat_map app firstn]. fold (waits evs).
    split; [now rewrite Hk|]. intros H. now rewrite Hok.
Qed.

(** At the state after a role has launched two instances: both are listed
    and both are waited for. *)
Lemma waits_follow_instances_witness :
  exists evs k,
    history (snd (wait_until_running empty_cloud two_launched))
      = history two_launched ++ evs /\
    waits evs = firstn k (map inst_id [enriched "i-subnet-b-0";
                                       enriched "i-subnet-b-1"]) /\
    (fst (wait_until_running empty_cloud two_launched) = Ok tt ->
     waits evs = map inst_id [enriched "i-subnet-b-0"; enriched "i-subnet-b-1"]).
Proof.
  apply (waits_follow_instances empty_cloud two_launched
           [enriched "i-subnet-b-0"; enriched "i-subnet-b-1"]).
  vm_compute. reflexivity.
Defined.

Example waits_of_two_launched :
  fst (wait_until_running empty_cloud two_launched) = Ok tt /\
  waits (history (snd (wait_until_running empty_cloud two_launched)))
    = ["i-subnet-b-0"; "i-subnet-b-1"].
Proof. vm_compute. split; reflexivity. Qed.









(** ** The subnets of a build *)

(** What [allocate] returns when it returns, position by position. *)
Lemma allocate_positions (P : AddressBlock) (S : list Z) (bs : list AddressBlock) :
  wf_block P -> Forall is_pow2 S -> allocate P S = Ok bs ->
  length bs = length S /\
  (forall i b, nth_error bs i = Some b ->
     inside P b /\ nth_error S i = Some (capacity b)) /\
  (forall i j bi bj, i <> j ->
     nth_error bs i = Some bi -> nth_error bs j = Some bj -> disjoint bi bj).
Proof.
  intros (Hlen & Hbase & Hal) Hpow Hrun.
  assert (total S <= capacity P) as Hfit.
  { unfold allocate in Hrun. destruct (capacity P <? total S) eqn:E; [discriminate|].
    apply Z.ltb_ge in E. exact E. }
  set (reqs := sorted by_size_desc (indexed S)).
  assert (Permutation reqs (indexed S)) as Hperm by apply sorted_perm.
  assert (Forall (fun r => is_pow2 (snd r)) reqs) as Hpr.
  { rewrite Forall_forall in *. intros r Hr. apply Hpow.
    rewrite <- (map_snd_indexed S). apply in_map.
    eapply Permutation_in; eauto. }
  assert (total (map snd reqs) = total S) as Htot.
  { transitivity (total (map snd (indexed S))).
    - apply total_perm. now apply Permutation_map.
    - now rewrite map_snd_indexed. }
  assert (assign (block_end P) (base P) reqs = Ok (place (base P) reqs)) as Hassign.
  { apply assign_place; auto.
    - apply sorted_ordered; [apply by_size_desc_total | apply by_size_desc_trans].
    - intros r Hr. apply Z.divide_trans with (capacity P); [|exact Hal].
      rewrite Forall_forall in Hpr. apply pow2_divide; auto.
      + exists (address_bits - prefixlen P). split; [lia|reflexivity].
      + assert (In (snd r) S) as HinS.
        { rewrite <- (map_snd_indexed S). apply in_map.
          eapply Permutation_in; eauto. }
        pose proof (member_le_total S (snd r) Hpow HinS). lia.
    - unfold block_end. lia. }
  assert (Permutation (map fst (place (base P) reqs)) (seq 0 (length S))) as Hpos.
  { rewrite map_fst_place, <- map_fst_indexed. now apply Permutation_map. }
  assert (bs = map snd (sorted by_position (place (base P) reqs))) as ->.
  { unfold allocate in Hrun. fold reqs in Hrun. rewrite Hassign in Hrun.
    destruct (capacity P <? total S); [discriminate|]. now inversion Hrun. }
  split; [|split].
  - rewrite length_map, sorted_length.
    rewrite <- (length_map fst), map_fst_place, length_map.
    apply Permutation_length in Hperm. rewrite Hperm.
    rewrite <- (length_map fst), map_fst_indexed. apply length_seq.
  - intros i b Hn. eapply reordered_nth in Hn; [|exact Hpos].
    apply place_In in Hn as (Hin & Hlo & Hhi); [|exact Hpr].
    split; [split; [exact Hlo | unfold block_end in *; lia]|].
    eapply Permutation_in in Hin; [|exact Hperm].
    apply In_indexed_from in Hin as [_ Hin]. now rewrite Nat.sub_0_r in Hin.
  - intros i j bi bj Hne Hi Hj.
    eapply reordered_nth in Hi; [|exact Hpos].
    eapply reordered_nth in Hj; [|exact Hpos].
    eapply place_disjoint; eauto.
Qed.

Lemma pairs_of_positions {A} (R : A -> A -> Prop) (l : list A) :
  (forall i j x y, i <> j -> nth_error l i = Some x -> nth_error l j = Some y -> R x y) ->
  ForallOrdPairs R l.
Proof.
  induction l as [|a l IH]; intros H; constructor.
  - rewrite Forall_forall. intros y Hy.
    apply In_nth_error in Hy as [j Hj].
    apply (H 0%nat (Datatypes.S j)); [lia|reflexivity|exact Hj].
  - apply IH. intros i j x y Hne Hi Hj.
    apply (H (Datatypes.S i) (Datatypes.S j)); [lia|exact Hi|exact Hj].
Qed.

Lemma pairs_perm {A} (R : A -> A -> Prop) (l l' : list A) :
  (forall x y, R x y -> R y x) ->
  Permutation l l' -> ForallOrdPairs R l -> ForallOrdPairs R l'.
Proof.
  intros Hsym. induction 1 as [|x l l' Hp IH|x y l|l l' l'' H1 IH1 H2 IH2]; intros H.
  - constructor.
  - inversion H; subst. constructor; [|auto].
    eapply Permutation_Forall; eauto.
  - inversion H as [|? ? Hy Hrest]; subst. inversion Hrest as [|? ? Hx Hl]; subst.
    inversion Hy; subst.
    constructor; [constructor; auto|]. constructor; auto.
  - auto.
Qed.

Lemma In_combine_nth_error {A B} (l1 : list A) : forall (l2 : list B) x y,
  In (x, y) (combine l1 l2) ->
  exists i, nth_error l1 i = Some x /\ nth_error l2 i = Some y.
Proof.
  induction l1 as [|a l1 IH]; intros [|b l2] x y Hin; simpl in Hin; try contradiction.
  destruct Hin as [Heq|Hin].
  - inversion Heq; subst. exists 0%nat. auto.
  - apply IH in Hin as (i & H1 & H2). exists (Datatypes.S i). auto.
Qed.

Lemma Forall2_of_combine {A B} (Q : A -> B -> Prop) (l1 : list A) :
  forall (l2 : list B),
  length l1 = length l2 ->
  Forall (fun p => Q (fst p) (snd p)) (combine l1 l2) -> Forall2 Q l1 l2.
Proof.
  induction l1 as [|a l1 IH]; intros [|b l2] Hlen H; simpl in *;
    try discriminate; constructor.
  - inversion H; subst. assumption.
  - apply IH; [lia|]. now inversion H.
Qed.

Lemma Forall2_maps {A B C D} (Q : C -> D -> Prop) (f : A -> C) (g : B -> D)
  (l1 : list A) : forall (l2 : list B),
  Forall2 Q (map f l1) (map g l2) -> Forall2 (fun a b => Q (f a) (g b)) l1 l2.
Proof.
  induction l1 as [|a l1 IH]; intros [|b l2] H; simpl in *; inversion H; subst;
    constructor; auto.
Qed.

Lemma entries_setdefault_append d : forall k b,
  Permutation (entries (setdefault_append d k b)) ((k, b) :: entries d).
Proof.
  induction d as [|[k0 l] d IH]; intros k b; simpl.
  - reflexivity.
  - destruct (k0 =? k) eqn:E.
    + apply Z.eqb_eq in E. subst k0. cbn [entries flat_map fst snd].
      rewrite map_app. cbn [map]. rewrite <- app_assoc. cbn [app].
      symmetry. apply Permutation_middle.
    + cbn [entries flat_map fst snd]. fold (entries (setdefault_append d k b)).
      fold (entries d). rewrite IH.
      change ((k, b) :: map (pair k0) l ++ entries d)
        with (((k, b) :: map (pair k0) l) ++ entries d).
      rewrite (Permutation_app_comm (map (pair k0) l) ((k, b) :: entries d)).
      cbn [app]. constructor. apply Permutation_app_comm.
Qed.

Lemma entries_by_size (pairs : list (Z * AddressBlock)) : forall d,
  Permutation
    (entries (fold_left (fun d '(size, cidr) => setdefault_append d size cidr) pairs d))
    (pairs ++ entries d).
Proof.
  induction pairs as [|[k b] pairs IH]; intros d; simpl; [reflexivity|].
  rewrite IH, entries_setdefault_append. symmetry. apply Permutation_middle.
Qed.

Lemma entries_pop_block d : forall size b d',
  pop_block d size = Ok (b, d') ->
  Permutation (entries d) ((size, b) :: entries d').
Proof.
  induction d as [|[k l] d IH]; intros size b d' H; simpl in H; [discriminate|].
  destruct (k =? size) eqn:E.
  - apply Z.eqb_eq in E. subst k.
    destruct (rev l) as [|x front] eqn:Hrev; [discriminate|].
    inversion H; subst. clear H.
    assert (l = rev front ++ [b]) as ->.
    { rewrite <- (rev_involutive l), Hrev. reflexivity. }
    cbn [entries flat_map fst snd]. rewrite map_app. cbn [map].
    rewrite <- app_assoc. cbn [app]. symmetry. apply Permutation_middle.
  - destruct (pop_block d size) as [[b0 d0]|e] eqn:Hp; [|discriminate].
    inversion H; subst. clear H.
    cbn [entries flat_map fst snd]. fold (entries d). fold (entries d0).
    rewrite (IH _ _ _ Hp). symmetry. apply Permutation_middle.
Qed.

Lemma created_subnets_app a b :
  created_subnets (a ++ b) = created_subnets a ++ created_subnets b.
Proof. unfold created_subnets. apply flat_map_app. Qed.

(** The loop of [subnets]: one subnet per entry, in the zone of the entry,
    on a block popped from the dictionary under the entry's size. *)
Lemma subnets_loop W cfg : forall d s d' s',
  for_fold cfg d (fun by_size '(name, sn) =>
    let longname := (evpc_name W ++ "-" ++ name)%string in
    az_name <-
      match sn_availability_zone sn with
      | Some az_letter => ret (region_name W ++ az_letter)%string
      | None =>
          n <- lift (python_int (last_segment name)) ;;
          lift (py_index (evpc_azones W) (n - 1))
      end ;;
    '(cidr, by_size') <- lift (pop_block by_size (sn_size sn)) ;;
    emit W ("creating subnet " ++ str_cidr W cidr ++ " in " ++ az_name)%string info ;;
    subnet <- perform W (CreateSubnet cidr az_name) (new_subnet W) ;;
    emit W ("tagging subnet (Name:" ++ longname ++ ")")%string debug ;;
    update_tags W (Subnet subnet)
      [("Name", longname);
       ("description", match sn_description sn with Some d => d | None => "" end)] ;;
    (if sn_public sn
     then perform W (MapPublicIpOnLaunch subnet) (fun _ => tt)
     else ret tt) ;;
    ret by_size') s = (Ok d', s') ->
  exists evs,
    history s' = history s ++ evs /\
    Forall2 (fun item c => zone_of W item (snd c)) cfg (created_subnets evs) /\
    Permutation
      (combine (map (fun x => sn_size (snd x)) cfg) (map fst (created_subnets evs))
         ++ entries d')
      (entries d).
Proof.
  induction cfg as [|[name sn] cfg IH]; intros d s d' s' H.
  - inversion H; subst. exists []. rewrite app_nil_r.
    split; [reflexivity|]. split; [constructor|reflexivity].
  - cbn [for_fold] in H.
    apply bind_Ok_inv in H as (d1 & s1 & Hbody & Hrest).
    apply bind_Ok_inv in Hbody as (az_name & t1 & Haz & Hbody).
    assert (t1 = s /\ zone_of W (name, sn) az_name) as (-> & Hzone).
    { unfold zone_of. cbn [fst snd].
      destruct (sn_availability_zone sn) as [az_letter|].
      - inversion Haz; subst. auto.
      - apply bind_Ok_inv in Haz as (n & t0 & Hn & Haz).
        apply lift_Ok_inv in Hn as (Hn & ->).
        apply lift_Ok_inv in Haz as (Haz & ->). eauto. }
    apply bind_Ok_inv in Hbody as ([cidr d1'] & t2 & Hpop & Hbody).
    apply lift_Ok_inv in Hpop as (Hpop & ->).
    apply bind_Ok_inv in Hbody as ([] & t3 & Hlog1 & Hbody).
    apply perform_Ok_inv in Hlog1 as (_ & _ & Ht3).
    apply bind_Ok_inv in Hbody as (subnet & t4 & Hcreate & Hbody).
    apply perform_Ok_inv in Hcreate as (_ & _ & Ht4).
    apply bind_Ok_inv in Hbody as ([] & t5 & Hlog2 & Hbody).
    apply perform_Ok_inv in Hlog2 as (_ & _ & Ht5).
    apply bind_Ok_inv in Hbody as ([] & t6 & Htag & Hbody).
    apply perform_Ok_inv in Htag as (_ & _ & Ht6).
    apply bind_Ok_inv in Hbody as ([] & t7 & Hpub & Hret).
    inversion Hret; subst d1 t7. clear Hret.
    assert (exists evs0, history s1 = history t6 ++ evs0 /\ created_subnets evs0 = [])
      as (evs0 & Hs1 & Hnone).
    { destruct (sn_public sn).
      - apply perform_Ok_inv in Hpub as (_ & _ & ->). eexists [_]. split; reflexivity.
      - inversion Hpub; subst. exists []. rewrite app_nil_r. split; reflexivity. }
    apply IH in Hrest as (evs & Hh & Hzones & Hperm).
    apply entries_pop_block in Hpop.
    eexists ([_; CreateSubnet cidr az_name; _; _] ++ evs0 ++ evs).
    split; [|split].
    + rewrite Hh, Hs1, Ht6, Ht5, Ht4, Ht3. cbn [history].
      rewrite <- !app_assoc. reflexivity.
    + rewrite !created_subnets_app, Hnone. cbn [created_subnets flat_map app].
      constructor; [exact Hzone|exact Hzones].
    + rewrite !created_subnets_app, Hnone. cbn [created_subnets flat_map app].
      cbn [map combine fst snd app]. rewrite Hpop. constructor. exact Hperm.
Qed.

(** X13: when [subnets] completes on power-of-two sizes in a well-formed VPC
    block, it has created one subnet per configured subnet, in configuration
    order, each in the zone of its entry (the configured letter after the
    region, or the zone numbered by the end of its name), each on a block of
    exactly the configured size inside the VPC block, and no two of the blocks
    overlap. *)
Theorem subnets_do_not_overlap (W : Cloud) (subnet_cfg : dict SubnetCfg)
  (s s' : state) :
  wf_block (evpc_cidr_block W) ->
  (forall name sn, In (name, sn) subnet_cfg -> is_pow2 (sn_size sn)) ->
  subnets W subnet_cfg s = (Ok tt, s') ->
  exists evs,
    history s' = history s ++ evs /\
    Forall2 (fun item c => zone_of W item (snd c)) subnet_cfg (created_subnets evs) /\
    Forall2 (fun item c => capacity (fst c) = sn_size (snd item) /\
                           inside (evpc_cidr_block W) (fst c))
            subnet_cfg (created_subnets evs) /\
    ForallOrdPairs disjoint (map fst (created_subnets evs)).
Proof.
  intros Hwf Hpow H. unfold subnets in H.
  set (sizes := sorted Z.leb (map (fun x => sn_size (snd x)) subnet_cfg)) in *.
  apply bind_Ok_inv in H as (cidrs & t & Halloc & H).
  apply lift_Ok_inv in Halloc as (Halloc & ->).
  apply bind_Ok_inv in H as (d' & s1 & Hloop & Hret).
  inversion Hret; subst s1. clear Hret.
  assert (Permutation sizes (map (fun x => sn_size (snd x)) subnet_cfg)) as Hsizes
    by apply sorted_perm.
  assert (Forall is_pow2 sizes) as Hp2.
  { eapply Permutation_Forall; [symmetry; exact Hsizes|].
    rewrite Forall_map, Forall_forall. intros [name sn] Hin. eapply Hpow; eauto. }
  destruct (allocate_positions _ _ _ Hwf Hp2 Halloc) as (Hlen & Hpos & Hdis).
  apply subnets_loop in Hloop as (evs & Hh & Hzones & Hperm).
  exists evs. split; [exact Hh|]. split; [exact Hzones|].
  rewrite entries_by_size in Hperm. cbn [entries flat_map] in Hperm.
  rewrite app_nil_r in Hperm.
  assert (length (created_subnets evs) = length subnet_cfg) as Hcount
    by (symmetry; eapply Forall2_length; eauto).
  assert (length sizes = length subnet_cfg) as Hls.
  { apply Permutation_length in Hsizes. now rewrite length_map in Hsizes. }
  set (made := combine (map (fun x => sn_size (snd x)) subnet_cfg)
                       (map fst (created_subnets evs))) in *.
  assert (length made = length subnet_cfg) as Hmade.
  { unfold made. rewrite length_combine, !length_map. lia. }
  assert (entries d' = []) as Hempty.
  { apply Permutation_length in Hperm.
    rewrite length_app, length_combine in Hperm.
    destruct (entries d'); [reflexivity|]. simpl in Hperm. lia. }
  rewrite Hempty, app_nil_r in Hperm.
  split.
  - apply Forall2_maps with (Q := fun size b => capacity b = size /\
                                   inside (evpc_cidr_block W) b)
                            (f := fun x => sn_size (snd x)) (g := fst).
    apply Forall2_of_combine; [rewrite !length_map; lia|].
    fold made. eapply Permutation_Forall; [symmetry; exact Hperm|].
    rewrite Forall_forall. intros [size b] Hin. cbn [fst snd].
    apply In_combine_nth_error in Hin as (i & Hi & Hb).
    destruct (Hpos i b Hb) as (Hinside & Hcap).
    split; [congruence|exact Hinside].
  - apply pairs_perm with (l := cidrs).
    + intros x y [Hxy|Hxy]; [right|left]; exact Hxy.
    + assert (map snd made = map fst (created_subnets evs)) as <-.
      { unfold made. clear -Hcount.
        revert Hcount. generalize (created_subnets evs) as cs.
        induction subnet_cfg as [|x cfg IH]; intros [|c cs] Hc; simpl in *;
          try discriminate; [reflexivity|]. f_equal. apply IH. lia. }
      assert (map snd (combine sizes cidrs) = cidrs) as Hsnd.
      { clear -Hlen. revert cidrs Hlen. generalize sizes as l.
        induction l as [|x l IH]; intros [|c cs] Hc; simpl in *;
          try discriminate; [reflexivity|]. f_equal. apply IH. lia. }
      rewrite <- Hsnd. apply Permutation_map. symmetry. exact Hperm.
    + apply pairs_of_positions. intros i j x y Hne Hi Hj. eapply Hdis; eauto.
Qed.

(** At three subnets in 10.0.0.0/24: private-1 goes to the first zone,
    public-1 to its configured zone b, private-2 to the second zone. *)
Lemma subnets_do_not_overlap_witness :
  exists evs,
    history (snd (subnets empty_cloud three_subnets fresh)) = history fresh ++ evs /\
    Forall2 (fun item c => zone_of empty_cloud item (snd c))
            three_subnets (created_subnets evs) /\
    Forall2 (fun item c => capacity (fst c) = sn_size (snd item) /\
                           inside (evpc_cidr_block empty_cloud) (fst c))
            three_subnets (created_subnets evs) /\
    ForallOrdPairs disjoint (map fst (created_subnets evs)).
Proof.
  apply (subnets_do_not_overlap empty_cloud three_subnets fresh
           (snd (subnets empty_cloud three_subnets fresh))).
  - unfold wf_block, capacity, address_bits. cbn [evpc_cidr_block empty_cloud
      demo_cloud prefixlen base].
    split; [lia|]. split; [lia|]. exists 655360. reflexivity.
  - intros name sn [H|[H|[H|[]]]]; inversion H; cbn [sn_size];
      (exists 6; split; [lia|reflexivity]) || (exists 5; split; [lia|reflexivity]).
  - vm_compute. reflexivity.
Defined.

Example three_subnets_created :
  created_subnets (history (snd (subnets empty_cloud three_subnets fresh))) =
    [(mk_block 167772224 26, "us-east-1a");
     (mk_block 167772288 27, "us-east-1b");
     (mk_block 167772160 26, "us-east-1b")].
Proof. vm_compute. reflexivity. Qed.

Example python_int_literals :
  python_int "2" = Ok 2 /\ python_int " 10 " = Ok 10 /\ python_int "-3" = Ok (-3) /\
  python_int "b" =
    Raise (mk_exn ValueError "invalid literal for int() with base 10: 'b'").
Proof. repeat split. Qed.

(** ** Roles that need nothing *)

Lemma unchanged_refl s : unchanged s s.
Proof. reflexivity. Qed.

Lemma unchanged_trans s1 s2 s3 : unchanged s1 s2 -> unchanged s2 s3 -> unchanged s1 s3.
Proof. unfold unchanged. congruence. Qed.

Lemma lookups_unchanged {A} (f : string -> list call -> outcome A) names t :
  snd (map_M (fun n => query (fun h => f n h)) names t) = t.
Proof.
  apply (preserves_map_M unchanged unchanged_refl unchanged_trans).
  intros x. apply (preserves_query unchanged unchanged_refl).
Qed.

Lemma keys_unchanged W (sns : list (option string)) t :
  snd (map_M (fun sn =>
         sn_id <- attr sn "instances" ;;
         k <- query (fun h => subnet_instances_len W h sn_id) ;;
         ret (k, sn_id)) sns t) = t.
Proof.
  apply (preserves_map_M unchanged unchanged_refl unchanged_trans).
  intros x. apply (preserves_bind unchanged unchanged_trans).
  - apply (preserves_attr unchanged unchanged_refl).
  - intros a. apply (preserves_bind unchanged unchanged_trans).
    + apply (preserves_query unchanged unchanged_refl).
    + intros k. apply (preserves_ret unchanged unchanged_refl).
Qed.

Lemma bind_lift_run {A B} (o : outcome A) (f : A -> M B) s :
  bind (lift o) f s = match o with Ok a => f a s | Raise e => (Raise e, s) end.
Proof. destruct o; reflexivity. Qed.

Lemma bind_query_run {A B} (q : list call -> outcome A) (f : A -> M B) s :
  bind (query q) f s =
    match q (history s) with Ok a => f a s | Raise e => (Raise e, s) end.
Proof. unfold bind, query. destruct (q (history s)); reflexivity. Qed.

Lemma bind_unchanged_run {A B} (m : M A) (f : A -> M B) s :
  snd (m s) = s ->
  bind m f s = match fst (m s) with Ok a => f a s | Raise e => (Raise e, s) end.
Proof.
  unfold bind. destruct (m s) as [[a|e] t]; simpl; intros ->; reflexivity.
Qed.

(** X14: a role that lists no subnets, or that already has at least the
    desired number of instances in the VPC, launches nothing and calls nothing
    but the logger, however [instance_role] ends. *)
Theorem satisfied_role_launches_nothing (W : Cloud) (amis : dict (dict string))
  (role_name : string) (role_data : RoleCfg) (desired_count : Z) (s : state) :
  role_subnets role_data = [] \/
  (exists existing,
     get_role W (history s ++ [Emit ("creating role: " ++ role_name)%string info])
       role_name = Ok existing /\
     desired_count <= len existing) ->
  exists evs,
    history (snd (instance_role W amis role_name role_data desired_count s))
      = history s ++ evs /\
    forallb is_emit evs = true.
Proof.
  intros Hsat. unfold instance_role.
  rewrite bind_emit_run.
  set (s1 := {| history := history s
                  ++ [Emit ("creating role: " ++ role_name)%string info];
                heap := heap s |}).
  destruct (fault W (history s) _) as [e|].
  { eexists [_]. split; reflexivity. }
  assert (forall (r : outcome (option (list Instance)) * state),
            (snd r = s1 \/
             exists msg lvl,
               snd r = {| history := history s1 ++ [Emit msg lvl]; heap := heap s1 |}) ->
            exists evs, history (snd r) = history s ++ evs /\
                        forallb is_emit evs = true) as Hdone.
  { intros r [->|(msg & lvl & ->)].
    - eexists [_]. split; reflexivity.
    - eexists [_; _]. cbn [history s1]. rewrite <- app_assoc. split; reflexivity. }
  apply Hdone. clear Hdone.
  rewrite bind_lift_run.
  destruct (role_ami role_data) as [ami_ref|]; [|left; reflexivity].
  rewrite bind_lift_run.
  destruct (dict_getitem amis ami_ref) as [by_region|e]; [|left; reflexivity].
  rewrite bind_lift_run.
  destruct (dict_getitem by_region (region_name W)) as [ami|e]; [|left; reflexivity].
  rewrite bind_query_run.
  destruct (get_key_pair W (history s1) _) as [key_pair|e]; [|left; reflexivity].
  rewrite bind_unchanged_run
    by apply (lookups_unchanged (fun n h => get_security_group W h n)).
  destruct (fst (map_M _ (role_security_groups role_data) s1)) as [sgs|e];
    [|left; reflexivity].
  rewrite bind_unchanged_run
    by apply (lookups_unchanged (fun n h => get_subnet W h n)).
  pose proof (@map_M_length _ _ (fun n => query (fun h => get_subnet W h n))
                (role_subnets role_data) s1) as Hlen.
  destruct (map_M _ (role_subnets role_data) s1) as [[sns|e] t1];
    cbn [fst]; [|left; reflexivity].
  specialize (Hlen sns t1 eq_refl).
  destruct (len sns =? 0) eqn:Hz.
  { rewrite bind_emit_run. right.
    match goal with |- context [fault W ?h ?c] => destruct (fault W h c) end;
      cbn [snd ret]; eauto. }
  rewrite bind_unchanged_run by apply keys_unchanged.
  destruct (fst (map_M _ sns s1)) as [keyed|e]; [|left; reflexivity].
  rewrite bind_query_run.
  destruct Hsat as [Hnone|(existing & Hex & Hle)].
  { rewrite Hnone in Hlen. destruct sns; [discriminate Hz|discriminate Hlen]. }
  change (history s1) with
    (history s ++ [Emit ("creating role: " ++ role_name)%string info]).
  rewrite Hex.
  apply Z.leb_le in Hle. rewrite Hle.
  rewrite bind_lift_run. cbn [py_add]. left. reflexivity.
Qed.

Lemma satisfied_role_launches_nothing_witness :
  exists evs,
    history (snd (instance_role uneven_cloud demo_amis "db"
                    (demo_role 2 "base" ["subnet-a"]) 2 keyed_state))
      = history keyed_state ++ evs /\
    forallb is_emit evs = true.
Proof.
  apply (satisfied_role_launches_nothing uneven_cloud demo_amis "db"
           (demo_role 2 "base" ["subnet-a"]) 2 keyed_state).
  right. exists ["i-1"; "i-2"; "i-3"]. split; [reflexivity|].
  unfold len. simpl. lia.
Defined.
